(** * Package expvar: exported variables, sorted maps and the registry

    A shallow embedding of the Go package: the scalar variables (Int, Float,
    String), the sorted Map, the Bucket registry, the Func adapter and the
    two renderings (Map.String and the HTTP handler's document), together
    with the parts of the Go library they call.

    Conventions.
    - A Go string is a sequence of bytes: [string].
    - A pointer to a variable is an address into a store of objects of its
      type; [new] hands out the next free address.  Go has no dangling
      pointers, so an address that was handed out is always in range.
    - A panic is a result of its own; the state reached when it is raised is
      kept, because a caller may recover and go on.
    - sync.Map is a finite map; every method of the package runs to its end
      before the next one starts, except where a schedule is written out. *)

From Stdlib Require Import ZArith String Ascii List Lia Floats DecimalString.
From Stdlib Require DecimalPos.
From stdpp Require Import base gmap strings list sorting.

Local Open Scope string_scope.
Local Open Scope list_scope.

(** ** The Go library, as far as the package calls it *)

Module Go.

Definition dquote : ascii := "034"%char.
Definition backslash : ascii := "092"%char.
Definition newline : string := String "010"%char EmptyString.

(** A panic or a normal return. *)
Inductive Result (A : Type) : Type :=
| Ok (a : A)
| Panic (msg : string).
Arguments Ok {A} a.
Arguments Panic {A} msg.

(** int64 arithmetic wraps around. *)
Definition wrap64 (z : Z) : Z := ((z + 2 ^ 63) mod 2 ^ 64 - 2 ^ 63)%Z.
Definition int64 (z : Z) : Prop := (- 2 ^ 63 <= z < 2 ^ 63)%Z.

(** strconv.FormatInt(i, 10). *)
Definition FormatInt (i : Z) : string := NilZero.string_of_int (Z.to_int i).

Definition hexDigit (n : N) : ascii :=
  match get (N.to_nat n) "0123456789abcdef" with
  | Some c => c
  | None => "0"%char
  end.

Definition hex2 (c : ascii) : string :=
  let n := N_of_ascii c in
  String (hexDigit (n / 16)) (String (hexDigit (n mod 16)) EmptyString).

Fixpoint concatMap (f : ascii -> string) (s : string) : string :=
  match s with
  | EmptyString => EmptyString
  | String c s' => f c +:+ concatMap f s'
  end.

(** strconv.Quote, which is what the verb %q prints for a string: exact on
    every ASCII byte.  A byte from 0x80 on is printed as Go prints a byte
    that is not part of a valid UTF-8 sequence; Go copies the valid
    sequence of a printable rune through, which this model does not
    follow. *)
Definition quoteByte (c : ascii) : string :=
  let n := N_of_ascii c in
  if (n =? 34)%N then String backslash (String dquote EmptyString)
  else if (n =? 92)%N then String backslash (String backslash EmptyString)
  else if ((32 <=? n) && (n <? 127))%N then String c EmptyString
  else if (n =? 7)%N then "\a"
  else if (n =? 8)%N then "\b"
  else if (n =? 12)%N then "\f"
  else if (n =? 10)%N then "\n"
  else if (n =? 13)%N then "\r"
  else if (n =? 9)%N then "\t"
  else if (n =? 11)%N then "\v"
  else "\x" +:+ hex2 c.

Definition Quote (s : string) : string :=
  String dquote (concatMap quoteByte s +:+ String dquote EmptyString).

(** encoding/json on a string (HTML escaping on, as json.Marshal has it):
    exact on every ASCII byte; bytes from 0x80 on are copied through, as Go
    does for valid UTF-8 other than U+2028 and U+2029. *)
Definition jsonByte (c : ascii) : string :=
  let n := N_of_ascii c in
  if (n =? 34)%N then String backslash (String dquote EmptyString)
  else if (n =? 92)%N then String backslash (String backslash EmptyString)
  else if (n =? 10)%N then "\n"
  else if (n =? 13)%N then "\r"
  else if (n =? 9)%N then "\t"
  else if ((n <? 32) || (n =? 60) || (n =? 62) || (n =? 38))%N then "\u00" +:+ hex2 c
  else String c EmptyString.

Definition jsonString (s : string) : string :=
  String dquote (concatMap jsonByte s +:+ String dquote EmptyString).

(** The values a Func may return, as far as encoding/json tells them apart:
    a channel or a function has no JSON encoding. *)
Inductive Any : Type :=
| GoNil
| GoBool (b : bool)
| GoInt (i : Z)
| GoString (s : string)
| GoStrings (l : list string)
| GoChan
| GoFunc.

Fixpoint join (sep : string) (l : list string) : string :=
  match l with
  | [] => EmptyString
  | [x] => x
  | x :: l' => x +:+ sep +:+ join sep l'
  end.

(** json.Marshal on such a value: the bytes, or None for the error. *)
Definition Marshal (v : Any) : option string :=
  match v with
  | GoNil => Some "null"
  | GoBool b => Some (if b then "true" else "false")
  | GoInt i => Some (FormatInt i)
  | GoString s => Some (jsonString s)
  | GoStrings l => Some ("[" +:+ join "," (map jsonString l) +:+ "]")
  | GoChan | GoFunc => None
  end.

(** sort.Search: the least index in [0, n) at which [f] holds, by bisection.
    The loop halves [j - i], so [n] rounds are more than it can use. *)
Fixpoint Search_loop (fuel : nat) (f : nat -> bool) (i j : nat) : nat :=
  match fuel with
  | O => i
  | S fuel' =>
      if (i <? j)%nat then
        let h := ((i + j) / 2)%nat in
        if negb (f h) then Search_loop fuel' f (h + 1) j
        else Search_loop fuel' f i h
      else i
  end.

Definition Search (n : nat) (f : nat -> bool) : nat := Search_loop n f 0 n.

(** sort.SearchStrings(a, x): the test is a[i] >= x. *)
Definition SearchStrings (a : list string) (x : string) : nat :=
  Search (length a) (fun i => String.leb x (a !!! i)).

(** sort.Strings: the sorted permutation (there is one only, whatever the
    algorithm). *)
Definition Strings (a : list string) : list string := merge_sort String.le a.

End Go.

Import Go.

(** ** The variables *)

Definition addr := nat.

(** type Func func() interface{} *)
Definition Func := unit -> Any.

(** A value of the interface type Var: nil, or a value of one of the types
    of the package that have a String method. *)
Inductive Var : Type :=
| Nil
| IntPtr (p : addr)
| FloatPtr (p : addr)
| StringPtr (p : addr)
| MapPtr (p : addr)
| FuncVal (f : Func).

(** type Map: the store and the sorted slice of keys (the mutex guards the
    slice and has no state of its own here). *)
Record Map : Type := mkMap {
  Map_m : gmap string Var;
  Map_keys : list string
}.

Record Bucket : Type := mkBucket {
  Bucket_vars : gmap string Var;
  Bucket_varKeys : list string
}.

Record KeyValue : Type := mkKeyValue {
  Key : string;
  Value : Var
}.

(** The objects variables point to.  An Int holds an int64; a Float holds a
    float64 (the code keeps its bit pattern, which Float64frombits and
    Float64bits convert back and forth without loss); a String holds an
    atomic.Value, empty until the first Store. *)
Record Heap : Type := mkHeap {
  h_int : list Z;
  h_float : list float;
  h_string : list (option string);
  h_map : list Map
}.

#[global] Instance float_inhabited : Inhabited float := populate PrimFloat.zero.
#[global] Instance Map_inhabited : Inhabited Map := populate (mkMap ∅ []).

Definition emptyHeap : Heap := mkHeap [] [] [] [].
(** The zero values: new(Map) and &Bucket{}. *)
Definition zeroMap : Map := mkMap ∅ [].
Definition zeroBucket : Bucket := mkBucket ∅ [].

(** *** sync.Map *)

Definition Load (sm : gmap string Var) (key : string) : Var * bool :=
  match sm !! key with
  | Some v => (v, true)
  | None => (Nil, false)
  end.

Definition Store (sm : gmap string Var) (key : string) (v : Var) : gmap string Var :=
  <[key := v]> sm.

Definition LoadOrStore (sm : gmap string Var) (key : string) (v : Var)
  : gmap string Var * Var * bool :=
  match sm !! key with
  | Some actual => (sm, actual, true)
  | None => (<[key := v]> sm, v, false)
  end.

Definition Delete (sm : gmap string Var) (key : string) : gmap string Var :=
  delete key sm.

(** The type assertion i.(Var) without the second result: it panics on the
    nil interface, which is also what a Load that misses returns. *)
Definition assertVar (i : Var) : Result Var :=
  match i with
  | Nil => Panic "interface conversion: interface is nil, not expvar.Var"
  | _ => Ok i
  end.

(** The same assertion with its second result, av, ok := i.(Var): no panic,
    nil and false on the nil interface. *)
Definition assertVar_ok (i : Var) : Var * bool :=
  match i with
  | Nil => (Nil, false)
  | _ => (i, true)
  end.

(** *** Int *)

Definition new_Int (h : Heap) : addr * Heap :=
  (length (h_int h), mkHeap (h_int h ++ [0%Z]) (h_float h) (h_string h) (h_map h)).

Definition Int_Value (p : addr) (h : Heap) : Z := h_int h !!! p.

Definition Int_String (p : addr) (h : Heap) : string := FormatInt (h_int h !!! p).

Definition Int_Add (p : addr) (delta : Z) (h : Heap) : Heap :=
  mkHeap (alter (fun i => wrap64 (i + delta)) p (h_int h)) (h_float h) (h_string h) (h_map h).

Definition Int_Increment (p : addr) (h : Heap) : Heap := Int_Add p 1 h.
Definition Int_Decrement (p : addr) (h : Heap) : Heap := Int_Add p (-1) h.

Definition Int_Set (p : addr) (value : Z) (h : Heap) : Heap :=
  mkHeap (<[p := value]> (h_int h)) (h_float h) (h_string h) (h_map h).

(** *** Float *)

Definition new_Float (h : Heap) : addr * Heap :=
  (length (h_float h), mkHeap (h_int h) (h_float h ++ [PrimFloat.zero]) (h_string h) (h_map h)).

Definition Float_Value (p : addr) (h : Heap) : float := h_float h !!! p.

(** Add: with no other writer the compare-and-swap succeeds at once. *)
Definition Float_Add (p : addr) (delta : float) (h : Heap) : Heap :=
  mkHeap (h_int h) (alter (fun cur => PrimFloat.add cur delta) p (h_float h))
         (h_string h) (h_map h).


(** *** String *)

Definition new_String (h : Heap) : addr * Heap :=
  (length (h_string h), mkHeap (h_int h) (h_float h) (h_string h ++ [None]) (h_map h)).

(** p, _ := v.s.Load().(string): the empty string when nothing was stored. *)
Definition String_Value (p : addr) (h : Heap) : string :=
  match h_string h !!! p with
  | Some s => s
  | None => EmptyString
  end.

Definition String_String (p : addr) (h : Heap) : string :=
  let s := String_Value p h in
  match Marshal (GoString s) with
  | Some b => b
  | None => EmptyString
  end.

Definition String_Set (p : addr) (value : string) (h : Heap) : Heap :=
  mkHeap (h_int h) (h_float h) (<[p := Some value]> (h_string h)) (h_map h).

(** *** Map *)

(** The builtin copy(dst, src): the first min(len dst, len src) elements of
    [src] over the start of [dst]. *)
Definition copy {A : Type} (dst src : list A) : list A :=
  take (length dst) src ++ drop (length src) dst.

(** addKey updates the sorted list of keys in v.keys. *)
Definition Map_addKey (key : string) (v : Map) : Map :=
  let keys := Map_keys v in
  let i := SearchStrings keys key in
  if (length keys <=? i)%nat then
    mkMap (Map_m v) (keys ++ [key])
  else if negb (String.eqb (keys !!! i) key) then
    let keys1 := keys ++ [EmptyString] in
    let keys2 := take (i + 1) keys1 ++ copy (drop (i + 1) keys1) (drop i keys1) in
    mkMap (Map_m v) (<[i := key]> keys2)
  else v.

Definition Map_Get (key : string) (v : Map) : Var :=
  let '(i, _) := Load (Map_m v) key in
  let '(av, _) := assertVar_ok i in
  av.

(** Set, up to the point where the key is in the store: the result says
    whether addKey is still to be called. *)
Definition Map_Set_store (key : string) (av : Var) (v : Map) : Map * bool :=
  let '(_, ok) := Load (Map_m v) key in
  if negb ok then
    let '(m', _, dup) := LoadOrStore (Map_m v) key av in
    if negb dup then (mkMap m' (Map_keys v), true)
    else (mkMap (Store m' key av) (Map_keys v), false)
  else (mkMap (Store (Map_m v) key av) (Map_keys v), false).

Definition Map_Set (key : string) (av : Var) (v : Map) : Map :=
  let '(v', fresh) := Map_Set_store key av v in
  if fresh then Map_addKey key v' else v'.

(** Add adds delta to the *Int value stored under the given map key. *)
Definition Map_Add (key : string) (delta : Z) (v : Map) (h : Heap) : Map * Heap :=
  let '(i, ok) := Load (Map_m v) key in
  let '(i, v, h) :=
    if negb ok then
      let '(p, h') := new_Int h in
      let '(m', i', dup) := LoadOrStore (Map_m v) key (IntPtr p) in
      let v' := mkMap m' (Map_keys v) in
      (i', (if negb dup then Map_addKey key v' else v'), h')
    else (i, v, h) in
  match i with
  | IntPtr iv => (v, Int_Add iv delta h)
  | _ => (v, h)
  end.

(** AddFloat adds delta to the *Float value stored under the given map key. *)
Definition Map_AddFloat (key : string) (delta : float) (v : Map) (h : Heap) : Map * Heap :=
  let '(i, ok) := Load (Map_m v) key in
  let '(i, v, h) :=
    if negb ok then
      let '(p, h') := new_Float h in
      let '(m', i', dup) := LoadOrStore (Map_m v) key (FloatPtr p) in
      let v' := mkMap m' (Map_keys v) in
      (i', (if negb dup then Map_addKey key v' else v'), h')
    else (i, v, h) in
  match i with
  | FloatPtr iv => (v, Float_Add iv delta h)
  | _ => (v, h)
  end.

(** Delete deletes the given key from the map. *)
Definition Map_Delete (key : string) (v : Map) : Map :=
  let keys := Map_keys v in
  let i := SearchStrings keys key in
  if (i <? length keys)%nat && String.eqb key (keys !!! i) then
    mkMap (Delete (Map_m v) key) (take i keys ++ drop (i + 1) keys)
  else v.

(** Init removes all keys from the map: the slice is cut to length 0 and
    Range deletes every key of the store. *)
Definition Map_Init (v : Map) : Map :=
  mkMap (foldr (fun k sm => Delete sm k) (Map_m v) (map fst (map_to_list (Map_m v)))) [].

(** The loop of Do, over the store [sm] and the keys [ks]: the visitor is a
    closure, whose captured variables are the state [S] it transforms. *)
Fixpoint range_keys {S : Type} (sm : gmap string Var) (f : KeyValue -> S -> S)
    (ks : list string) (s : S) : Result S :=
  match ks with
  | [] => Ok s
  | k :: ks' =>
      let '(i, _) := Load sm k in
      match assertVar i with
      | Ok av => range_keys sm f ks' (f (mkKeyValue k av) s)
      | Panic msg => Panic msg
      end
  end.

(** Do calls f for each entry in the map. *)
Definition Map_Do {S : Type} (f : KeyValue -> S -> S) (v : Map) (s : S) : Result S :=
  range_keys (Map_m v) f (Map_keys v) s.

(** *** Bucket *)

(** Publish declares a named exported variable; a name already registered
    is a panic, raised before the key slice is touched. *)
Definition Bucket_Publish (name : string) (v : Var) (m : Bucket) : Bucket * Result unit :=
  let '(vars', _, dup) := LoadOrStore (Bucket_vars m) name v in
  if dup then
    (mkBucket vars' (Bucket_varKeys m),
     Panic ("Reuse of exported var name: " +:+ name +:+ newline))
  else
    (mkBucket vars' (Strings (Bucket_varKeys m ++ [name])), Ok tt).

(** Get retrieves a named exported variable; nil if it is not registered. *)
Definition Bucket_Get (name : string) (m : Bucket) : Var :=
  let '(i, _) := Load (Bucket_vars m) name in
  let '(v, _) := assertVar_ok i in
  v.

Definition Bucket_Do {S : Type} (f : KeyValue -> S -> S) (m : Bucket) (s : S) : Result S :=
  range_keys (Bucket_vars m) f (Bucket_varKeys m) s.

Definition new_Map (h : Heap) : addr * Heap :=
  (length (h_map h), mkHeap (h_int h) (h_float h) (h_string h) (h_map h ++ [zeroMap])).

Definition assertion_failed {A : Type} : Result A :=
  Panic "interface conversion: expvar.Var is of another type".

Definition Bucket_NewMap (name : string) (m : Bucket) (h : Heap)
  : Bucket * Heap * Result addr :=
  match Bucket_Get name m with
  | Nil =>
      let '(v, h') := new_Map h in
      match Bucket_Publish name (MapPtr v) m with
      | (m', Ok _) => (m', h', Ok v)
      | (m', Panic msg) => (m', h', Panic msg)
      end
  | MapPtr v => (m, h, Ok v)
  | _ => (m, h, assertion_failed)
  end.

Definition Bucket_NewString (name : string) (m : Bucket) (h : Heap)
  : Bucket * Heap * Result addr :=
  match Bucket_Get name m with
  | Nil =>
      let '(v, h') := new_String h in
      match Bucket_Publish name (StringPtr v) m with
      | (m', Ok _) => (m', h', Ok v)
      | (m', Panic msg) => (m', h', Panic msg)
      end
  | StringPtr v => (m, h, Ok v)
  | _ => (m, h, assertion_failed)
  end.

Definition Bucket_NewInt (name : string) (m : Bucket) (h : Heap)
  : Bucket * Heap * Result addr :=
  match Bucket_Get name m with
  | Nil =>
      let '(v, h') := new_Int h in
      match Bucket_Publish name (IntPtr v) m with
      | (m', Ok _) => (m', h', Ok v)
      | (m', Panic msg) => (m', h', Panic msg)
      end
  | IntPtr v => (m, h, Ok v)
  | _ => (m, h, assertion_failed)
  end.

(** NewFloat allocates before it looks the name up. *)
Definition Bucket_NewFloat (name : string) (m : Bucket) (h : Heap)
  : Bucket * Heap * Result addr :=
  let '(v, h') := new_Float h in
  match Bucket_Get name m with
  | Nil =>
      match Bucket_Publish name (FloatPtr v) m with
      | (m', Ok _) => (m', h', Ok v)
      | (m', Panic msg) => (m', h', Panic msg)
      end
  | FloatPtr v0 => (m, h', Ok v0)
  | _ => (m, h', assertion_failed)
  end.

(** ** Rendering *)

Section Rendering.

(** Two functions of the Go library that print a float64 are left open:
    strconv.FormatFloat(x, 'g', -1, 64), and what encoding/json writes for
    a float64 that is neither a NaN nor an infinity. *)
Variable FormatFloat : float -> string.
Variable jsonFloat : float -> string.

Definition Float_String (p : addr) (h : Heap) : string :=
  FormatFloat (Float_Value p h).

(** json.Marshal on a Var.  Int, Float and String have a MarshalJSON
    method, which marshals the value; a float64 that is a NaN or an
    infinity has no encoding.  Map has no such method and no exported
    field: the encoding of the struct is the empty object.  Func is a
    function type, which encoding/json refuses. *)
Definition MarshalVar (h : Heap) (v : Var) : option string :=
  match v with
  | Nil => Marshal GoNil
  | IntPtr p => Marshal (GoInt (Int_Value p h))
  | FloatPtr p =>
      let f := Float_Value p h in
      if is_nan f || is_infinity f then None else Some (jsonFloat f)
  | StringPtr p => Marshal (GoString (String_Value p h))
  | MapPtr _ => Some "{}"
  | FuncVal _ => None
  end.

(** The closure of Map.String: [b] is the builder, [first] the flag. *)
Definition Map_String_visit (h : Heap) (kv : KeyValue) (st : string * bool)
  : string * bool :=
  let '(b, first) := st in
  let b := if negb first then b +:+ ", " else b in
  match MarshalVar h (Value kv) with
  | None => (b, first)
  | Some val => ((b +:+ Quote (Key kv) +:+ ": ") +:+ val, false)
  end.

Definition Map_String (h : Heap) (v : Map) : Result string :=
  match Map_Do (Map_String_visit h) v ("{", true) with
  | Ok (b, _) => Ok (b +:+ "}")
  | Panic msg => Panic msg
  end.


Definition Func_String (f : Func) : string :=
  match Marshal (f tt) with
  | Some v => v
  | None => EmptyString
  end.

(** The method String of a Var, called through the interface. *)
Definition Var_String (h : Heap) (v : Var) : Result string :=
  match v with
  | Nil => Panic "runtime error: invalid memory address or nil pointer dereference"
  | IntPtr p => Ok (Int_String p h)
  | FloatPtr p => Ok (Float_String p h)
  | StringPtr p => Ok (String_String p h)
  | MapPtr p => Map_String h (h_map h !!! p)
  | FuncVal f => Ok (Func_String f)
  end.

(** The verb %s on a Var: fmt calls String and prints a panic of that
    method in place of its result. *)
Definition fmt_s (h : Heap) (v : Var) : string :=
  match Var_String h v with
  | Ok s => s
  | Panic msg => "%!s(PANIC=String method: " +:+ msg +:+ ")"
  end.

(** The closure of expvarHandler: [w] is what was written so far. *)
Definition expvarHandler_visit (h : Heap) (kv : KeyValue) (st : string * bool)
  : string * bool :=
  let '(w, first) := st in
  let w := if negb first then w +:+ "," +:+ newline else w in
  ((w +:+ Quote (Key kv) +:+ ": ") +:+ fmt_s h (Value kv), false).

(** expvarHandler, on the registry [m] for Default: the body it writes. *)
Definition expvarHandler (h : Heap) (m : Bucket) : Result string :=
  match Bucket_Do (expvarHandler_visit h) m ("{" +:+ newline, true) with
  | Ok (w, _) => Ok (w +:+ newline +:+ "}" +:+ newline)
  | Panic msg => Panic msg
  end.

End Rendering.

(** ** The state of a Map and of a Bucket between two calls *)

Notation "s1 ≺ s2" := (strict String.le s1 s2) (at level 70).

(** The key slice is sorted in ascending order without repetition, and
    holds the keys of the store, all of them and no other. *)
Definition consistent (sm : gmap string Var) (ks : list string) : Prop :=
  StronglySorted (strict String.le) ks ∧ ∀ k, k ∈ ks ↔ is_Some (sm !! k).

Definition Map_consistent (v : Map) : Prop := consistent (Map_m v) (Map_keys v).
Definition Bucket_consistent (m : Bucket) : Prop :=
  consistent (Bucket_vars m) (Bucket_varKeys m).

(** No nil was stored as a variable. *)
Definition no_nil (sm : gmap string Var) : Prop := ∀ k, sm !! k ≠ Some Nil.

(** The calls that change a Map, and a program that makes them in turn. *)
Inductive Map_call : Type :=
| CallSet (key : string) (av : Var)
| CallAdd (key : string) (delta : Z)
| CallAddFloat (key : string) (delta : float)
| CallDelete (key : string)
| CallInit.

Definition Map_exec (c : Map_call) (st : Map * Heap) : Map * Heap :=
  match c with
  | CallSet key av => (Map_Set key av st.1, st.2)
  | CallAdd key delta => Map_Add key delta st.1 st.2
  | CallAddFloat key delta => Map_AddFloat key delta st.1 st.2
  | CallDelete key => (Map_Delete key st.1, st.2)
  | CallInit => (Map_Init st.1, st.2)
  end.

Definition Map_run (cs : list Map_call) (st : Map * Heap) : Map * Heap :=
  foldl (fun st c => Map_exec c st) st cs.

(** The calls that change a Bucket; a caller that recovers from the panic
    of one call goes on with the next. *)
Inductive Bucket_call : Type :=
| CallPublish (name : string) (v : Var)
| CallNewMap (name : string)
| CallNewString (name : string)
| CallNewInt (name : string)
| CallNewFloat (name : string).

Definition Bucket_exec (c : Bucket_call) (st : Bucket * Heap) : Bucket * Heap :=
  match c with
  | CallPublish name v => ((Bucket_Publish name v st.1).1, st.2)
  | CallNewMap name => (Bucket_NewMap name st.1 st.2).1
  | CallNewString name => (Bucket_NewString name st.1 st.2).1
  | CallNewInt name => (Bucket_NewInt name st.1 st.2).1
  | CallNewFloat name => (Bucket_NewFloat name st.1 st.2).1
  end.

Definition Bucket_run (cs : list Bucket_call) (st : Bucket * Heap) : Bucket * Heap :=
  foldl (fun st c => Bucket_exec c st) st cs.

(** The visitor that records the entries it is called with, in order. *)
Definition record (kv : KeyValue) (seen : list KeyValue) : list KeyValue :=
  seen ++ [kv].

(** ** JSON texts

    What the renderings are meant to produce, after RFC 8259: a recogniser
    that consumes one value from the front of a text and returns the rest. *)

Module JSON.

Definition is_ws (c : ascii) : bool :=
  let n := N_of_ascii c in
  ((n =? 32) || (n =? 9) || (n =? 10) || (n =? 13))%N.

Definition is_digit (c : ascii) : bool :=
  let n := N_of_ascii c in ((48 <=? n) && (n <=? 57))%N.

Definition is_hex (c : ascii) : bool :=
  let n := N_of_ascii c in
  (((48 <=? n) && (n <=? 57)) || ((65 <=? n) && (n <=? 70)) || ((97 <=? n) && (n <=? 102)))%N.

Fixpoint skip_ws (s : string) : string :=
  match s with
  | String c r => if is_ws c then skip_ws r else s
  | EmptyString => EmptyString
  end.

Fixpoint skip_digits (s : string) : string :=
  match s with
  | String c r => if is_digit c then skip_digits r else s
  | EmptyString => EmptyString
  end.

(** The rest of a string literal, after its opening quote. *)
Fixpoint scan_string (s : string) : option string :=
  match s with
  | EmptyString => None
  | String c r =>
      if Ascii.eqb c dquote then Some r
      else if Ascii.eqb c backslash then
        match r with
        | String e r' =>
            if Ascii.eqb e "u" then
              match r' with
              | String h1 (String h2 (String h3 (String h4 r''))) =>
                  if is_hex h1 && is_hex h2 && is_hex h3 && is_hex h4
                  then scan_string r'' else None
              | _ => None
              end
            else if Ascii.eqb e dquote || Ascii.eqb e backslash || Ascii.eqb e "/"
                    || Ascii.eqb e "b" || Ascii.eqb e "f" || Ascii.eqb e "n"
                    || Ascii.eqb e "r" || Ascii.eqb e "t"
            then scan_string r' else None
        | EmptyString => None
        end
      else if (N_of_ascii c <? 32)%N then None
      else scan_string r
  end.

Definition scan_digits1 (s : string) : option string :=
  match s with
  | String d r => if is_digit d then Some (skip_digits r) else None
  | EmptyString => None
  end.

Definition scan_number (s : string) : option string :=
  let s := match s with String "-" r => r | _ => s end in
  let int :=
    match s with
    | String c r =>
        if Ascii.eqb c "0" then Some r
        else if is_digit c then Some (skip_digits r) else None
    | EmptyString => None
    end in
  let frac :=
    match int with
    | Some (String "." r) => scan_digits1 r
    | other => other
    end in
  match frac with
  | Some (String e r) =>
      if Ascii.eqb e "e" || Ascii.eqb e "E" then
        match r with
        | String sg r' =>
            if Ascii.eqb sg "+" || Ascii.eqb sg "-" then scan_digits1 r'
            else scan_digits1 r
        | EmptyString => None
        end
      else frac
  | other => other
  end.

Fixpoint strip_prefix (p s : string) : option string :=
  match p, s with
  | EmptyString, _ => Some s
  | String a p', String b s' => if Ascii.eqb a b then strip_prefix p' s' else None
  | String _ _, EmptyString => None
  end.

Fixpoint scan_value (fuel : nat) (s : string) : option string :=
  match fuel with
  | O => None
  | S n =>
      match s with
      | EmptyString => None
      | String c r =>
          if Ascii.eqb c "{" then
            match skip_ws r with
            | String "}" r' => Some r'
            | r' => scan_members n r'
            end
          else if Ascii.eqb c "[" then
            match skip_ws r with
            | String "]" r' => Some r'
            | r' => scan_elements n r'
            end
          else if Ascii.eqb c dquote then scan_string r
          else if Ascii.eqb c "t" then strip_prefix "true" s
          else if Ascii.eqb c "f" then strip_prefix "false" s
          else if Ascii.eqb c "n" then strip_prefix "null" s
          else scan_number s
      end
  end
with scan_members (fuel : nat) (s : string) : option string :=
  match fuel with
  | O => None
  | S n =>
      match s with
      | String c r =>
          if Ascii.eqb c dquote then
            match scan_string r with
            | Some r1 =>
                match skip_ws r1 with
                | String ":" r2 =>
                    match scan_value n (skip_ws r2) with
                    | Some r3 =>
                        match skip_ws r3 with
                        | String "," r4 => scan_members n (skip_ws r4)
                        | String "}" r4 => Some r4
                        | _ => None
                        end
                    | None => None
                    end
                | _ => None
                end
            | None => None
            end
          else None
      | EmptyString => None
      end
  end
with scan_elements (fuel : nat) (s : string) : option string :=
  match fuel with
  | O => None
  | S n =>
      match scan_value n s with
      | Some r1 =>
          match skip_ws r1 with
          | String "," r2 => scan_elements n (skip_ws r2)
          | String "]" r2 => Some r2
          | _ => None
          end
      | None => None
      end
  end.

(** A JSON text: one value, with white space around it and nothing else. *)
Definition Valid (s : string) : bool :=
  match scan_value (S (String.length s)) (skip_ws s) with
  | Some r => match skip_ws r with EmptyString => true | _ => false end
  | None => false
  end.

End JSON.

(** What scan_number does with the rest of a number once its integer part
    has been read: the fraction and the exponent. *)
Definition number_tail (int : option string) : option string :=
  let frac :=
    match int with
    | Some (String "." r) => JSON.scan_digits1 r
    | other => other
    end in
  match frac with
  | Some (String e r) =>
      if Ascii.eqb e "e" || Ascii.eqb e "E" then
        match r with
        | String sg r' =>
            if Ascii.eqb sg "+" || Ascii.eqb sg "-" then JSON.scan_digits1 r'
            else JSON.scan_digits1 r
        | EmptyString => None
        end
      else frac
  | other => other
  end.

(** ** States the statements below are evaluated at *)

#[global] Instance Var_inhabited : Inhabited Var := populate Nil.

(** [s] between two quotes. *)
Definition quoted (s : string) : string := String dquote (s +:+ String dquote EmptyString).

(** An Int holding 5 at address 0 and a String holding x at address 0. *)
Definition heap_5_x : Heap :=
  let '(i, h) := new_Int emptyHeap in
  let h := Int_Set i 5 h in
  let '(s, h) := new_String h in
  String_Set s "x" h.

(** The Int under a and the String under b, set in either order. *)
Definition map_b_then_a : Map :=
  Map_Set "a" (IntPtr 0) (Map_Set "b" (StringPtr 0) zeroMap).
Definition map_a_then_b : Map :=
  Map_Set "b" (StringPtr 0) (Map_Set "a" (IntPtr 0) zeroMap).

(** A Func that returns 1: its own String method prints 1, but a value of
    a function type is what json.Marshal is given in Map.String. *)
Definition one : Func := fun _ => GoInt 1.

(** A Func whose value has no JSON encoding. *)
Definition channel : Func := fun _ => GoChan.

(** m.Set(a, the Int); m.Set(b, Func(one)). *)
Definition map_a_func : Map :=
  Map_Set "b" (FuncVal one) (Map_Set "a" (IntPtr 0) zeroMap).

(** m.Set(a, the Int); m.Set(b, Func(one)); m.Set(c, the Int). *)
Definition map_a_func_c : Map := Map_Set "c" (IntPtr 0) map_a_func.

(** m.Set(a, the Int); m.Set(b, nil). *)
Definition map_a_nil : Map :=
  Map_Set "b" Nil (Map_Set "a" (IntPtr 0) zeroMap).

(** m.Set(k, nil) on a new Map, and Publish(k, nil) on a new Bucket. *)
Definition map_nil : Map := Map_Set "k" Nil zeroMap.
Definition bucket_nil : Bucket := (Bucket_Publish "k" Nil zeroBucket).1.

(** A schedule of two goroutines on a new Map: m.Set(k, the Int) stores
    the key, m.Init() then runs from its Lock to its Unlock, and Set goes
    on to addKey, which had to wait for that lock. *)
Definition map_raced : Map :=
  let '(v1, _) := Map_Set_store "k" (IntPtr 0) zeroMap in
  let v2 := Map_Init v1 in
  Map_addKey "k" v2.

(** Publish(v, Func(channel)) on a new Bucket; the same after Publish(x, the
    Int), and after Publish(a, the Int). *)
Definition bucket_chan : Bucket := (Bucket_Publish "v" (FuncVal channel) zeroBucket).1.

(** ** What the renderings print for one entry *)



(** A key of the slice has a value in the store, and the value is not nil. *)
Definition loadable (sm : gmap string Var) (k : string) : Prop :=
  ∃ x, sm !! k = Some x ∧ x ≠ Nil.

(** The value under a key of the slice is not nil and json.Marshal
    accepts it. *)
Definition marshals (jsonFloat : float -> string) (h : Heap)
    (sm : gmap string Var) (k : string) : Prop :=
  ∃ x val, sm !! k = Some x ∧ x ≠ Nil ∧ MarshalVar jsonFloat h x = Some val.

(** func cmdline() interface{} { return os.Args }, for the arguments the
    process was started with. *)
Definition cmdline (args : list string) : Func := fun _ => GoStrings args.

(** The bytes below 0x80 that strconv.Quote writes with an escape JSON does
    not have: \a, \v and \x with two hexadecimal digits, for the control
    characters other than \b, \t, \n, \f and \r, and for DEL. *)
Definition go_only_escape (c : ascii) : bool :=
  let n := N_of_ascii c in
  (((n <? 32) && negb ((n =? 8) || (n =? 9) || (n =? 10) || (n =? 12) || (n =? 13)))
   || (n =? 127))%N.

Fixpoint any_byte (f : ascii -> bool) (s : string) : bool :=
  match s with
  | EmptyString => false
  | String c r => f c || any_byte f r
  end.

Fixpoint all_bytes (f : ascii -> bool) (s : string) : bool :=
  match s with
  | EmptyString => true
  | String c r => f c && all_bytes f r
  end.

(** A key of ASCII bytes none of which Quote writes with an escape of its
    own. *)
Definition JSON_key (k : string) : bool :=
  all_bytes (fun c => (N_of_ascii c <? 128)%N && negb (go_only_escape c)) k.

(** What may follow a value in a JSON text: nothing, a comma, a closing
    brace or bracket, or white space. *)
Definition value_end (t : string) : bool :=
  match t with
  | EmptyString => true
  | String c _ => Ascii.eqb c "," || Ascii.eqb c "}" || Ascii.eqb c "]" || JSON.is_ws c
  end.

(** [val] is one JSON value that does not start with white space: the
    scanner reads it, and nothing more, out of any text that goes on as a
    JSON text may, given one unit of fuel more than [val] has bytes. *)
Definition scans_as_value (val : string) : Prop :=
  ∀ (n : nat) (t : string), value_end t = true → (String.length val <= n)%nat →
    JSON.skip_ws (val +:+ t) = val +:+ t ∧ JSON.scan_value (S n) (val +:+ t) = Some t.

(** The variables json.Marshal renders as a JSON value whatever they
    hold: an Int, a String, a Map. *)
Definition marshals_always (x : Var) : Prop :=
  match x with
  | IntPtr _ | StringPtr _ | MapPtr _ => True
  | Nil | FloatPtr _ | FuncVal _ => False
  end.

(** A Map whose keys are JSON keys, each bound to such a variable. *)
Definition JSON_map (v : Map) : Prop :=
  Forall (λ k, JSON_key k = true ∧ ∃ x, Map_m v !! k = Some x ∧ marshals_always x)
         (Map_keys v).

(** The variables whose String method returns a JSON value whatever they
    hold: an Int, a String, a Func whose value json.Marshal accepts, a Map
    as above. *)
Definition renders_JSON (h : Heap) (x : Var) : Prop :=
  match x with
  | IntPtr _ | StringPtr _ => True
  | FuncVal f => Marshal (f tt) ≠ None
  | MapPtr p => JSON_map (h_map h !!! p)
  | Nil | FloatPtr _ => False
  end.

(** A registry whose names are JSON keys, each bound to such a variable. *)
Definition JSON_bucket (h : Heap) (m : Bucket) : Prop :=
  Forall (λ k, JSON_key k = true ∧ ∃ x, Bucket_vars m !! k = Some x ∧ renders_JSON h x)
         (Bucket_varKeys m).

(** Publish(hits, the Int) and Publish(cmdline, Func(cmdline)) on a new
    Bucket, for a process started as expvar -v. *)
Definition bucket_cmdline : Bucket :=
  (Bucket_Publish "cmdline" (FuncVal (cmdline ["expvar"; "-v"]))
     (Bucket_Publish "hits" (IntPtr 0) zeroBucket).1).1.

(** A key that is the one byte BEL, set on a new Map and published on a
    new Bucket. *)
Definition bell : string := String "007" EmptyString.
Definition map_bell : Map := Map_Set bell (IntPtr 0) zeroMap.
Definition bucket_bell : Bucket := (Bucket_Publish bell (IntPtr 0) zeroBucket).1.

(** ** Bisection on a sorted slice *)

Local Open Scope nat_scope.

Section Bisection.

Variable n : nat.
Variable f : nat -> bool.
Hypothesis f_mono : ∀ a b : nat, a ≤ b → b < n → f a = true → f b = true.

Lemma Search_loop_spec (fuel i j : nat) :
  j - i ≤ fuel → i ≤ j → j ≤ n →
  (∀ k : nat, k < i → f k = false) →
  (∀ k : nat, j ≤ k → k < n → f k = true) →
  let r := Search_loop fuel f i j in
  i ≤ r ≤ j ∧ (∀ k : nat, k < r → f k = false) ∧ (∀ k : nat, r ≤ k → k < n → f k = true).
Proof.
  revert i j. induction fuel as [|fuel IH]; intros i j Hfuel Hij Hjn Hlo Hhi; cbn [Search_loop].
  - assert (i = j) as -> by lia. auto.
  - destruct (Nat.ltb_spec i j) as [Hlt|Hge].
    + assert (i ≤ (i + j) / 2 < j) as [Hh1 Hh2].
      { split; [apply Nat.div_le_lower_bound | apply Nat.Div0.div_lt_upper_bound]; lia. }
      destruct (f ((i + j) / 2)) eqn:Hf; cbn [negb].
      * assert (∀ k : nat, (i + j) / 2 ≤ k → k < n → f k = true) as Hhi'.
        { intros k Hk Hkn. apply (f_mono ((i + j) / 2)); auto. }
        destruct (IH i ((i + j) / 2) ltac:(lia) ltac:(lia) ltac:(lia) Hlo Hhi')
          as (Hr & Hr1 & Hr2).
        split; [lia | auto].
      * assert (∀ k : nat, k < (i + j) / 2 + 1 → f k = false) as Hlo'.
        { intros k Hk. destruct (f k) eqn:Hfk; [|done].
          rewrite (f_mono k ((i + j) / 2)) in Hf; [done | lia | lia | done]. }
        destruct (IH ((i + j) / 2 + 1) j ltac:(lia) ltac:(lia) ltac:(lia) Hlo' Hhi)
          as (Hr & Hr1 & Hr2).
        split; [lia | auto].
    + assert (i = j) as -> by lia. auto.
Qed.

Lemma Search_spec :
  let r := Search n f in
  r ≤ n ∧ (∀ k : nat, k < r → f k = false) ∧ (∀ k : nat, r ≤ k → k < n → f k = true).
Proof.
  destruct (Search_loop_spec n 0 n) as (Hr & Hr1 & Hr2); try lia.
  split; [unfold Search; lia | auto].
Qed.

End Bisection.

(** ** The order on keys *)

Lemma leb_le (x y : string) : String.leb x y = true ↔ String.le x y.
Proof. unfold String.le. by rewrite Is_true_true. Qed.

Lemma leb_false_lt (x y : string) : String.leb x y = false → y ≺ x.
Proof.
  intros Hf. assert (¬ String.le x y) as Hn by (rewrite <- leb_le; congruence).
  split; [|done]. by destruct (total String.le x y).
Qed.

Lemma lt_leb_false (x y : string) : y ≺ x → String.leb x y = false.
Proof.
  intros [_ Hn]. destruct (String.leb x y) eqn:E; [|done]. by apply leb_le in E.
Qed.

Lemma lt_neq (x y : string) : x ≺ y → x ≠ y.
Proof. intros [_ Hn] ->. by apply Hn. Qed.

Lemma le_neq_lt (x y : string) : String.le x y → x ≠ y → x ≺ y.
Proof.
  intros Hle Hne. split; [done|]. intros Hge. by apply Hne, (anti_symm String.le).
Qed.

Lemma sorted_lookup_lt (l : list string) (i j : nat) (x y : string) :
  StronglySorted (strict String.le) l →
  i < j → l !! i = Some x → l !! j = Some y → x ≺ y.
Proof.
  intros Hs. revert i j. induction Hs as [|a l Hs IH Hall]; intros i j Hij Hi Hj.
  - done.
  - destruct i as [|i], j as [|j]; try lia; simpl in *.
    + injection Hi as ->. rewrite Forall_forall in Hall.
      apply Hall. by eapply list_elem_of_lookup_2.
    + eapply (IH i j); [lia | done..].
Qed.

Lemma sorted_NoDup (l : list string) :
  StronglySorted (strict String.le) l → NoDup l.
Proof.
  induction 1 as [|a l Hs IH Hall]; constructor; [|done].
  intros Hin. rewrite Forall_forall in Hall. apply (lt_neq a a); [by apply Hall | done].
Qed.

(** SearchStrings on a sorted slice: the keys below [x] come before the
    index it returns, the others from there on. *)
Lemma SearchStrings_split (a : list string) (x : string) :
  StronglySorted (strict String.le) a →
  SearchStrings a x ≤ length a ∧
  Forall (λ s, s ≺ x) (take (SearchStrings a x) a) ∧
  Forall (λ s, String.le x s) (drop (SearchStrings a x) a).
Proof.
  intros Hs. unfold SearchStrings.
  destruct (Search_spec (length a) (λ i, String.leb x (a !!! i))) as (Hr & Hlo & Hhi).
  { intros i j Hij Hj Hi. apply leb_le. apply leb_le in Hi.
    destruct (decide (i = j)) as [->|Hne]; [done|].
    etrans; [exact Hi|].
    eapply (sorted_lookup_lt a i j); [done | lia | |];
      apply list_lookup_lookup_total_lt; lia. }
  split; [done|]. split; apply Forall_lookup; intros k s Hk.
  - apply lookup_take_Some in Hk as [Hk Hlt]. apply leb_false_lt.
    rewrite <- (list_lookup_total_correct _ _ _ Hk). by apply Hlo.
  - rewrite lookup_drop in Hk. apply leb_le.
    rewrite <- (list_lookup_total_correct _ _ _ Hk). apply Hhi; [lia|].
    by eapply lookup_lt_Some.
Qed.

(** ** The key slice under addKey and Delete *)

(** The three statements that make room at [i] and write the key there. *)
Lemma shift_insert (keys : list string) (i : nat) (key : string) :
  i < length keys →
  <[i := key]> (take (i + 1) (keys ++ [EmptyString])
                ++ copy (drop (i + 1) (keys ++ [EmptyString]))
                        (drop i (keys ++ [EmptyString])))
  = take i keys ++ key :: drop i keys.
Proof.
  intros Hi. unfold copy.
  rewrite take_app_le by lia. rewrite !drop_app_le by lia.
  rewrite (take_app_length' (drop i keys)) by (rewrite length_app, !length_drop; simpl; lia).
  rewrite (drop_ge (drop (i + 1) keys ++ [EmptyString]))
    by (rewrite !length_app, !length_drop; simpl; lia).
  rewrite app_nil_r.
  destruct (lookup_lt_is_Some_2 keys i Hi) as [a Ha].
  replace (i + 1) with (S i) by lia. rewrite (take_S_r _ _ _ Ha).
  rewrite insert_app_l by (rewrite length_app, length_take; simpl; lia).
  rewrite insert_app_r_alt by (rewrite length_take; lia).
  rewrite length_take_le by lia. rewrite Nat.sub_diag. simpl.
  by rewrite <- app_assoc.
Qed.

Lemma sorted_insert (l1 l2 : list string) (key : string) :
  StronglySorted (strict String.le) (l1 ++ l2) →
  Forall (λ s, s ≺ key) l1 → Forall (λ s, key ≺ s) l2 →
  StronglySorted (strict String.le) (l1 ++ key :: l2).
Proof.
  rewrite !StronglySorted_app, StronglySorted_cons, !Forall_forall.
  intros (H12 & H1 & H2) Hlt Hgt. split_and!; [|done..].
  intros x1 x2 Hx1 [->|Hx2]%elem_of_cons; auto.
Qed.

Lemma addKey_spec (key : string) (v : Map) :
  StronglySorted (strict String.le) (Map_keys v) →
  Map_m (Map_addKey key v) = Map_m v ∧
  StronglySorted (strict String.le) (Map_keys (Map_addKey key v)) ∧
  ∀ k, k ∈ Map_keys (Map_addKey key v) ↔ k = key ∨ k ∈ Map_keys v.
Proof.
  intros Hs. unfold Map_addKey.
  destruct (SearchStrings_split (Map_keys v) key Hs) as (Hr & Hlo & Hhi).
  set (i := SearchStrings (Map_keys v) key) in *.
  destruct (Nat.leb_spec (length (Map_keys v)) i) as [Hge|Hlt]; simpl.
  - rewrite take_ge in Hlo by done.
    split; [done|]. split; [|intros k; rewrite elem_of_app, list_elem_of_singleton; tauto].
    replace (Map_keys v ++ [key]) with (Map_keys v ++ key :: []) by done.
    apply sorted_insert; [by rewrite app_nil_r | done | constructor].
  - destruct (lookup_lt_is_Some_2 _ _ Hlt) as [a Ha].
    rewrite (list_lookup_total_correct _ _ _ Ha).
    destruct (String.eqb_spec a key) as [->|Hne]; simpl.
    + split; [done|]. split; [done|]. intros k. split; [tauto|].
      intros [->|]; [|done]. by eapply list_elem_of_lookup_2.
    + rewrite shift_insert by done.
      split; [done|]. split.
      * apply sorted_insert; [by rewrite take_drop | done |].
        rewrite (drop_S _ _ _ Ha) in Hhi |- *.
        apply Forall_cons in Hhi as [Ha1 _].
        assert (key ≺ a) as Hka by (apply le_neq_lt; [done | congruence]).
        constructor; [done|]. apply Forall_forall. intros s Hs'.
        apply list_elem_of_lookup_1 in Hs' as [j Hj]. rewrite lookup_drop in Hj.
        etrans; [exact Hka|]. eapply (sorted_lookup_lt _ i (S i + j)); [done | lia | done..].
      * intros k. rewrite <- (take_drop i (Map_keys v)) at 3.
        rewrite !elem_of_app, elem_of_cons. tauto.
Qed.

Lemma Delete_keys_spec (key : string) (v : Map) :
  StronglySorted (strict String.le) (Map_keys v) →
  StronglySorted (strict String.le) (Map_keys (Map_Delete key v)) ∧
  (∀ k, k ∈ Map_keys (Map_Delete key v) ↔ k ≠ key ∧ k ∈ Map_keys v) ∧
  (key ∈ Map_keys v → Map_m (Map_Delete key v) = delete key (Map_m v)) ∧
  (key ∉ Map_keys v → Map_Delete key v = v).
Proof.
  intros Hs. unfold Map_Delete.
  destruct (SearchStrings_split (Map_keys v) key Hs) as (Hr & Hlo & Hhi).
  set (i := SearchStrings (Map_keys v) key) in *.
  assert (key ∉ take i (Map_keys v)) as Hnotlo.
  { intros Hin. rewrite Forall_forall in Hlo. by apply (lt_neq key key); [apply Hlo|]. }
  destruct (Nat.ltb_spec i (length (Map_keys v))) as [Hlt|Hge]; simpl.
  - destruct (lookup_lt_is_Some_2 _ _ Hlt) as [a Ha].
    rewrite (list_lookup_total_correct _ _ _ Ha).
    pose proof Hs as Hs'. rewrite <- (take_drop i (Map_keys v)) in Hs'.
    rewrite (drop_S _ _ _ Ha) in Hs', Hhi.
    apply StronglySorted_app in Hs' as (H12 & H1 & H2).
    apply StronglySorted_cons in H2 as [Hall H2]. rewrite Forall_forall in Hall.
    replace (i + 1) with (S i) by lia.
    assert (∀ k, k ∈ Map_keys v ↔
                 k ∈ take i (Map_keys v) ∨ k = a ∨ k ∈ drop (S i) (Map_keys v)) as Hmem.
    { intros k. rewrite <- (take_drop_middle _ _ _ Ha) at 1.
      by rewrite elem_of_app, elem_of_cons. }
    destruct (String.eqb_spec key a) as [->|Hne]; simpl.
    + split; [|split; [|split]].
      * apply StronglySorted_app. split_and!; [|done..].
        intros x1 x2 Hx1 Hx2. apply H12; [done|]. by apply elem_of_cons; right.
      * intros k. rewrite Hmem, elem_of_app. split.
        -- intros [Hk|Hk]; (split; [|tauto]); intros ->; [done|].
           by apply (lt_neq a a); [apply Hall|].
        -- tauto.
      * done.
      * intros Hn. exfalso. apply Hn. by eapply list_elem_of_lookup_2.
    + assert (key ∉ Map_keys v) as Hnot.
      { rewrite Hmem. apply Forall_cons in Hhi as [Ha1 _].
        intros [Hin|[Heq|Hin]]; [done..|].
        apply Hall in Hin. apply (lt_neq key key); [|done].
        eapply (strict_trans_r (R:=String.le)); [exact Ha1 | done]. }
      split; [done|]. split; [|done]. intros k. split; [|tauto].
      intros Hk. split; [|done]. by intros ->.
  - rewrite take_ge in Hnotlo by lia.
    split; [done|]. split; [|done]. intros k. split; [|tauto].
    intros Hk. split; [|done]. by intros ->.
Qed.

(** ** Every call keeps the key slice and the store in step *)

Lemma store_consistent (key : string) (x : Var) (sm : gmap string Var) (ks : list string) :
  consistent sm ks → is_Some (sm !! key) → consistent (<[key := x]> sm) ks.
Proof.
  intros [Hs Hk] Hsome. split; [done|]. intros k.
  rewrite lookup_insert_is_Some, Hk.
  destruct (decide (key = k)) as [->|]; intuition.
Qed.

Lemma addKey_consistent (key : string) (x : Var) (sm : gmap string Var) (ks : list string) :
  consistent sm ks → Map_consistent (Map_addKey key (mkMap (<[key := x]> sm) ks)).
Proof.
  intros [Hs Hk]. unfold Map_consistent.
  destruct (addKey_spec key (mkMap (<[key := x]> sm) ks) Hs) as (-> & Hs' & Hk').
  split; [done|]. intros k. simpl in *.
  rewrite Hk', lookup_insert_is_Some, Hk.
  destruct (decide (key = k)) as [->|]; intuition congruence.
Qed.

Lemma Map_eta (v : Map) : mkMap (Map_m v) (Map_keys v) = v.
Proof. by destruct v. Qed.

Lemma Bucket_eta (m : Bucket) : mkBucket (Bucket_vars m) (Bucket_varKeys m) = m.
Proof. by destruct m. Qed.

Lemma Set_consistent (key : string) (av : Var) (v : Map) :
  Map_consistent v → Map_consistent (Map_Set key av v).
Proof.
  intros Hc. unfold Map_Set, Map_Set_store, Load, LoadOrStore.
  destruct (Map_m v !! key) eqn:E; simpl.
  - by apply store_consistent.
  - by apply addKey_consistent.
Qed.

Lemma Add_map (key : string) (delta : Z) (v : Map) (h : Heap) :
  (Map_Add key delta v h).1 =
  match Map_m v !! key with
  | Some _ => v
  | None => Map_addKey key (mkMap (<[key := IntPtr (length (h_int h))]> (Map_m v)) (Map_keys v))
  end.
Proof.
  unfold Map_Add, Load, LoadOrStore, new_Int.
  destruct (Map_m v !! key) as [i|] eqn:E; simpl; [by destruct i|done].
Qed.

Lemma AddFloat_map (key : string) (delta : float) (v : Map) (h : Heap) :
  (Map_AddFloat key delta v h).1 =
  match Map_m v !! key with
  | Some _ => v
  | None => Map_addKey key (mkMap (<[key := FloatPtr (length (h_float h))]> (Map_m v)) (Map_keys v))
  end.
Proof.
  unfold Map_AddFloat, Load, LoadOrStore, new_Float.
  destruct (Map_m v !! key) as [i|] eqn:E; simpl; [by destruct i|done].
Qed.

Lemma Add_consistent (key : string) (delta : Z) (v : Map) (h : Heap) :
  Map_consistent v → Map_consistent (Map_Add key delta v h).1.
Proof.
  intros Hc. rewrite Add_map. destruct (Map_m v !! key); [done|].
  by apply addKey_consistent.
Qed.

Lemma AddFloat_consistent (key : string) (delta : float) (v : Map) (h : Heap) :
  Map_consistent v → Map_consistent (Map_AddFloat key delta v h).1.
Proof.
  intros Hc. rewrite AddFloat_map. destruct (Map_m v !! key); [done|].
  by apply addKey_consistent.
Qed.

Lemma Delete_consistent (key : string) (v : Map) :
  Map_consistent v → Map_consistent (Map_Delete key v).
Proof.
  intros [Hs Hk]. destruct (Delete_keys_spec key v Hs) as (Hs' & Hk' & Hin & Hout).
  destruct (decide (key ∈ Map_keys v)) as [Hyes|Hno].
  - split; [done|]. intros k. rewrite Hk', (Hin Hyes), lookup_delete_is_Some, Hk.
    intuition congruence.
  - by rewrite (Hout Hno).
Qed.

Lemma delete_all (ks : list string) (sm : gmap string Var) (k : string) :
  foldr (fun k sm => Delete sm k) sm ks !! k = if decide (k ∈ ks) then None else sm !! k.
Proof.
  induction ks as [|a ks IH]; simpl; [done|].
  unfold Delete at 1.
  destruct (decide (a = k)) as [->|Hne];
    [rewrite lookup_delete_eq | rewrite lookup_delete_ne by done; rewrite IH];
    repeat case_decide; try done; exfalso;
    rewrite ?elem_of_cons in *; intuition congruence.
Qed.

Lemma Init_empty (v : Map) : Map_Init v = zeroMap.
Proof.
  unfold Map_Init, zeroMap. f_equal. apply map_empty. intros k.
  rewrite delete_all. destruct (Map_m v !! k) as [x|] eqn:E.
  - case_decide as Hin; [done|]. exfalso. apply Hin, list_elem_of_fmap.
    exists (k, x). split; [done|]. by apply elem_of_map_to_list.
  - by case_decide.
Qed.

Lemma zero_consistent : consistent ∅ [].
Proof.
  split; [constructor|]. intros k. rewrite lookup_empty. split.
  - by intros ?%not_elem_of_nil.
  - by intros [? ?].
Qed.

Lemma Map_exec_consistent (c : Map_call) (st : Map * Heap) :
  Map_consistent st.1 → Map_consistent (Map_exec c st).1.
Proof.
  intros Hc. destruct c; simpl.
  - by apply Set_consistent.
  - by apply Add_consistent.
  - by apply AddFloat_consistent.
  - by apply Delete_consistent.
  - rewrite Init_empty. apply zero_consistent.
Qed.

Lemma Map_run_consistent (cs : list Map_call) (st : Map * Heap) :
  Map_consistent st.1 → Map_consistent (Map_run cs st).1.
Proof.
  revert st. induction cs as [|c cs IH]; intros st Hc; [done|].
  apply IH. by apply Map_exec_consistent.
Qed.

Lemma sorted_NoDup_strict (l : list string) :
  StronglySorted String.le l → NoDup l → StronglySorted (strict String.le) l.
Proof.
  induction 1 as [|a l Hs IH Hall]; intros Hnd; [constructor|].
  apply NoDup_cons in Hnd as [Hnotin Hnd]. constructor; [by apply IH|].
  rewrite Forall_forall in Hall |- *. intros x Hx.
  apply le_neq_lt; [by apply Hall | by intros ->].
Qed.

Lemma Strings_spec (keys : list string) (name : string) :
  StronglySorted (strict String.le) keys → name ∉ keys →
  StronglySorted (strict String.le) (Strings (keys ++ [name])) ∧
  ∀ k, k ∈ Strings (keys ++ [name]) ↔ k = name ∨ k ∈ keys.
Proof.
  intros Hs Hnot. unfold Strings. split.
  - apply sorted_NoDup_strict; [apply StronglySorted_merge_sort; apply _|].
    rewrite merge_sort_Permutation. apply NoDup_app. split_and!.
    + by apply sorted_NoDup.
    + intros x Hx ->%list_elem_of_singleton. done.
    + apply NoDup_singleton.
  - intros k. rewrite merge_sort_Permutation, elem_of_app, list_elem_of_singleton. tauto.
Qed.

Lemma Publish_dup (name : string) (v x : Var) (m : Bucket) :
  Bucket_vars m !! name = Some x →
  Bucket_Publish name v m =
    (m, Panic ("Reuse of exported var name: " +:+ name +:+ newline)).
Proof.
  intros E. unfold Bucket_Publish, LoadOrStore. rewrite E. by rewrite Bucket_eta.
Qed.

Lemma Publish_fresh (name : string) (v : Var) (m : Bucket) :
  Bucket_vars m !! name = None →
  Bucket_Publish name v m =
    (mkBucket (<[name := v]> (Bucket_vars m)) (Strings (Bucket_varKeys m ++ [name])), Ok tt).
Proof. intros E. unfold Bucket_Publish, LoadOrStore. by rewrite E. Qed.

Lemma Publish_consistent (name : string) (v : Var) (m : Bucket) :
  Bucket_consistent m → Bucket_consistent (Bucket_Publish name v m).1.
Proof.
  intros [Hs Hk]. destruct (Bucket_vars m !! name) as [x|] eqn:E.
  - by rewrite (Publish_dup _ _ _ _ E).
  - rewrite (Publish_fresh _ _ _ E).
    assert (name ∉ Bucket_varKeys m) as Hnot.
    { rewrite Hk, E. by intros [? ?]. }
    destruct (Strings_spec _ _ Hs Hnot) as [Hs' Hk'].
    split; [done|]. intros k. simpl. rewrite Hk', lookup_insert_is_Some, Hk.
    destruct (decide (name = k)) as [->|]; intuition congruence.
Qed.

(** A typed constructor leaves the registry as it is or publishes. *)
Lemma New_publishes :
  ∀ name m h,
    (∃ v, (Bucket_NewMap name m h).1.1 = (Bucket_Publish name v m).1 ∨
          (Bucket_NewMap name m h).1.1 = m) ∧
    (∃ v, (Bucket_NewString name m h).1.1 = (Bucket_Publish name v m).1 ∨
          (Bucket_NewString name m h).1.1 = m) ∧
    (∃ v, (Bucket_NewInt name m h).1.1 = (Bucket_Publish name v m).1 ∨
          (Bucket_NewInt name m h).1.1 = m) ∧
    (∃ v, (Bucket_NewFloat name m h).1.1 = (Bucket_Publish name v m).1 ∨
          (Bucket_NewFloat name m h).1.1 = m).
Proof.
  intros name m h.
  unfold Bucket_NewMap, Bucket_NewString, Bucket_NewInt, Bucket_NewFloat.
  unfold new_Map, new_String, new_Int, new_Float.
  split_and!.
  - exists (MapPtr (length (h_map h))).
    destruct (Bucket_Get name m); try (by right).
    left. by destruct (Bucket_Publish _ _ m) as [m' [[]|msg]].
  - exists (StringPtr (length (h_string h))).
    destruct (Bucket_Get name m); try (by right).
    left. by destruct (Bucket_Publish _ _ m) as [m' [[]|msg]].
  - exists (IntPtr (length (h_int h))).
    destruct (Bucket_Get name m); try (by right).
    left. by destruct (Bucket_Publish _ _ m) as [m' [[]|msg]].
  - exists (FloatPtr (length (h_float h))).
    destruct (Bucket_Get name m); try (by right).
    left. by destruct (Bucket_Publish _ _ m) as [m' [[]|msg]].
Qed.

Lemma Bucket_exec_consistent (c : Bucket_call) (st : Bucket * Heap) :
  Bucket_consistent st.1 → Bucket_consistent (Bucket_exec c st).1.
Proof.
  intros Hc.
  destruct (New_publishes
              match c with
              | CallPublish name _ | CallNewMap name | CallNewString name
              | CallNewInt name | CallNewFloat name => name
              end st.1 st.2) as ([v1 H1] & [v2 H2] & [v3 H3] & [v4 H4]).
  destruct c; simpl in *.
  - by apply Publish_consistent.
  - destruct H1 as [-> | ->]; [by apply Publish_consistent | done].
  - destruct H2 as [-> | ->]; [by apply Publish_consistent | done].
  - destruct H3 as [-> | ->]; [by apply Publish_consistent | done].
  - destruct H4 as [-> | ->]; [by apply Publish_consistent | done].
Qed.

Lemma Bucket_run_consistent (cs : list Bucket_call) (st : Bucket * Heap) :
  Bucket_consistent st.1 → Bucket_consistent (Bucket_run cs st).1.
Proof.
  revert st. induction cs as [|c cs IH]; intros st Hc; [done|].
  apply IH. by apply Bucket_exec_consistent.
Qed.

(** C1. After any sequence of Set, Add, AddFloat, Delete and Init on a Map,
    and of Publish and the typed constructors on a Bucket, the key slice is
    sorted in ascending order, has no duplicate, and a key is in the slice
    exactly when it is in the store. *)
Theorem keys_match_store :
  (∀ (cs : list Map_call) (h : Heap),
     let v := (Map_run cs (zeroMap, h)).1 in
     StronglySorted (strict String.le) (Map_keys v) ∧
     NoDup (Map_keys v) ∧
     ∀ k, k ∈ Map_keys v ↔ is_Some (Map_m v !! k)) ∧
  (∀ (cs : list Bucket_call) (h : Heap),
     let m := (Bucket_run cs (zeroBucket, h)).1 in
     StronglySorted (strict String.le) (Bucket_varKeys m) ∧
     NoDup (Bucket_varKeys m) ∧
     ∀ k, k ∈ Bucket_varKeys m ↔ is_Some (Bucket_vars m !! k)).
Proof.
  split; intros cs h.
  - destruct (Map_run_consistent cs (zeroMap, h) zero_consistent) as [Hs Hk].
    split_and!; [done | by apply sorted_NoDup | done].
  - destruct (Bucket_run_consistent cs (zeroBucket, h) zero_consistent) as [Hs Hk].
    split_and!; [done | by apply sorted_NoDup | done].
Qed.

(** ** Do *)

(** Where every key of the slice has a value that is not nil, the loop
    returns, having called the visitor once for each key of the slice, in
    the order of the slice, with the value the store holds. *)
Lemma range_keys_fold {S : Type} (sm : gmap string Var) (f : KeyValue → S → S)
    (ks : list string) (s : S) :
  (∀ k, k ∈ ks → is_Some (sm !! k)) → no_nil sm →
  range_keys sm f ks s = Ok (foldl (fun s k => f (mkKeyValue k (sm !!! k)) s) s ks).
Proof.
  intros Hin Hnn. revert s. induction ks as [|k ks IH]; intros s; [done|].
  simpl. unfold Load. destruct (Hin k) as [x Hx]; [apply list_elem_of_here|].
  rewrite (lookup_total_correct _ _ _ Hx), Hx.
  destruct x; try (apply IH; intros; apply Hin; by apply list_elem_of_further).
  by destruct (Hnn k).
Qed.

Lemma foldl_record (sm : gmap string Var) (ks : list string) (seen : list KeyValue) :
  foldl (fun s k => record (mkKeyValue k (sm !!! k)) s) seen ks
  = seen ++ map (fun k => mkKeyValue k (sm !!! k)) ks.
Proof.
  revert seen. induction ks as [|k ks IH]; intros seen; simpl.
  - by rewrite app_nil_r.
  - rewrite IH. unfold record. by rewrite <- app_assoc.
Qed.

(** Do on a Map or a Bucket in a state left by its calls, when no nil was
    stored: the visitor is called once for each key present, in strictly
    ascending order. *)
Lemma Do_visits_each_key_once (sm : gmap string Var) (ks : list string) :
  consistent sm ks → no_nil sm →
  ∃ seen,
    range_keys sm record ks [] = Ok seen ∧
    map Key seen = ks ∧
    StronglySorted (strict String.le) (map Key seen) ∧
    NoDup (map Key seen) ∧
    (∀ k, k ∈ map Key seen ↔ is_Some (sm !! k)) ∧
    (∀ kv, kv ∈ seen → sm !! Key kv = Some (Value kv)) ∧
    (∀ (S : Type) (f : KeyValue → S → S) (s : S),
        range_keys sm f ks s = Ok (foldl (fun s kv => f kv s) s seen)).
Proof.
  intros [Hs Hk] Hnn.
  assert (∀ k, k ∈ ks → is_Some (sm !! k)) as Hin by (intros k; apply Hk).
  exists (map (fun k => mkKeyValue k (sm !!! k)) ks).
  assert (map Key (map (fun k => mkKeyValue k (sm !!! k)) ks) = ks) as Hkeys.
  { rewrite map_map. simpl. apply map_id. }
  rewrite Hkeys. split_and!; [|done|done|by apply sorted_NoDup|done| |].
  - by rewrite range_keys_fold, foldl_record.
  - intros kv (k & -> & Hkin)%list_elem_of_fmap. simpl.
    destruct (Hin k Hkin) as [x Hx]. by rewrite (lookup_total_correct _ _ _ Hx).
  - intros S f s. rewrite range_keys_fold by done.
    generalize s. clear. induction ks as [|k ks IH]; intros s; [done|]. apply IH.
Qed.

(** C2. The specification has Do call the visitor once for each key
    present, in ascending order, on every Map and Bucket.  The code does so
    where no nil is stored (Do_visits_each_key_once).  After m.Set(a, i) and
    m.Set(b, nil) the keys a and b are both present, in the slice and in
    the store, and Do panics at b, in the type assertion on the value it
    loaded: the visitor is never called with b. *)
Theorem Do_stops_at_a_nil_entry :
  Map_consistent map_a_nil ∧
  Map_keys map_a_nil = ["a"; "b"] ∧
  Map_m map_a_nil !! "b" = Some Nil ∧
  Map_Do record map_a_nil [] =
    Panic "interface conversion: interface is nil, not expvar.Var".
Proof.
  split_and!.
  - unfold map_a_nil. do 2 apply Set_consistent. apply zero_consistent.
  - by vm_compute.
  - by vm_compute.
  - by vm_compute.
Qed.

(** C7. The specification has Do never fail on a key of the slice whose
    value cannot be loaded as a Var: the miss is to be skipped.  The code
    has no such path: the type assertion on what Load returned panics on
    nil.  That is reached after m.Set(k, nil), where the value loaded is
    nil; after Publish(k, nil) on a Bucket; and on a Map where Init ran
    between the two halves of a Set, which leaves k in the slice and not in
    the store. *)
Theorem Do_panics_on_a_missing_value :
  (Map_consistent map_nil ∧
   Map_m map_nil !! "k" = Some Nil ∧
   Map_Do record map_nil [] =
     Panic "interface conversion: interface is nil, not expvar.Var") ∧
  (Bucket_consistent bucket_nil ∧
   Bucket_Do record bucket_nil [] =
     Panic "interface conversion: interface is nil, not expvar.Var") ∧
  (Map_keys map_raced = ["k"] ∧
   Map_m map_raced !! "k" = None ∧
   Map_Do record map_raced [] =
     Panic "interface conversion: interface is nil, not expvar.Var").
Proof.
  split_and!; try by vm_compute.
  - apply Set_consistent, zero_consistent.
  - apply Publish_consistent, zero_consistent.
Qed.

(** C3. The specification has Map.String leave out an entry that
    json.Marshal refuses and print the object of the others.  The closure
    writes the separator before it marshals, so the separator of a refused
    entry stays: with the Int 5 under a and a Func under b the result ends
    in a comma and a space before the brace, which is not the object of the
    remaining entry (what Map.String prints once b is deleted) and is not
    JSON; with the Int under c as well, two separators follow each other. *)
Theorem Map_String_keeps_the_separator_of_a_refused_entry :
  ∀ jsonFloat : float → string,
    MarshalVar jsonFloat heap_5_x (FuncVal one) = None ∧
    Map_String jsonFloat heap_5_x map_a_func = Ok ("{" +:+ quoted "a" +:+ ": 5, }") ∧
    Map_String jsonFloat heap_5_x (Map_Delete "b" map_a_func)
      = Ok ("{" +:+ quoted "a" +:+ ": 5}") ∧
    JSON.Valid ("{" +:+ quoted "a" +:+ ": 5, }") = false ∧
    Map_String jsonFloat heap_5_x map_a_func_c
      = Ok ("{" +:+ quoted "a" +:+ ": 5, , " +:+ quoted "c" +:+ ": 5}") ∧
    JSON.Valid ("{" +:+ quoted "a" +:+ ": 5, , " +:+ quoted "c" +:+ ": 5}") = false.
Proof. intros jsonFloat. split_and!; by vm_compute. Qed.

(** C4. A second Publish of a registered name panics and changes nothing:
    the registry is the one before the call, so Get returns the variable
    that was published first and the key slice is as it was. *)
Theorem Publish_twice_panics (m : Bucket) (name : string) (v0 v : Var) :
  Bucket_vars m !! name = Some v0 →
  ∃ msg,
    Bucket_Publish name v m = (m, Panic msg) ∧
    Bucket_Get name (Bucket_Publish name v m).1 = v0 ∧
    Bucket_varKeys (Bucket_Publish name v m).1 = Bucket_varKeys m.
Proof.
  intros E. eexists. rewrite (Publish_dup _ _ _ _ E). split_and!; [done| |done].
  simpl. unfold Bucket_Get, Load. rewrite E. by destruct v0.
Qed.

Lemma Publish_twice_panics_witness :
  let m := (Bucket_Publish "x" (IntPtr 0) zeroBucket).1 in
  Bucket_vars m !! "x" = Some (IntPtr 0) ∧
  ∃ msg,
    Bucket_Publish "x" (StringPtr 0) m = (m, Panic msg) ∧
    Bucket_Get "x" (Bucket_Publish "x" (StringPtr 0) m).1 = IntPtr 0 ∧
    Bucket_varKeys (Bucket_Publish "x" (StringPtr 0) m).1 = Bucket_varKeys m.
Proof.
  split; [by vm_compute|].
  apply (Publish_twice_panics _ "x" (IntPtr 0) (StringPtr 0)). by vm_compute.
Defined.

Lemma addKey_m (key : string) (v : Map) : Map_m (Map_addKey key v) = Map_m v.
Proof. unfold Map_addKey. by repeat case_match. Qed.

(** The key slice is determined by the store. *)
Lemma consistent_keys_unique (sm : gmap string Var) (ks1 ks2 : list string) :
  consistent sm ks1 → consistent sm ks2 → ks1 = ks2.
Proof.
  intros [Hs1 Hk1] [Hs2 Hk2].
  apply (StronglySorted_unique_strong (strict String.le)); [|done..|].
  - intros x1 x2 _ _ [_ Hn] [Hle _]. by destruct Hn.
  - apply NoDup_Permutation; [by apply sorted_NoDup..|].
    intros k. by rewrite Hk1, Hk2.
Qed.

Lemma Set_m (key : string) (av : Var) (v : Map) :
  Map_m (Map_Set key av v) = <[key := av]> (Map_m v).
Proof.
  unfold Map_Set, Map_Set_store, Load, LoadOrStore.
  destruct (Map_m v !! key); simpl; [done|]. by rewrite addKey_m.
Qed.

(** Two calls of Set on different keys leave the same Map in either order. *)
Lemma Set_commute (k1 k2 : string) (x y : Var) (v : Map) :
  Map_consistent v → k1 ≠ k2 →
  Map_Set k1 x (Map_Set k2 y v) = Map_Set k2 y (Map_Set k1 x v).
Proof.
  intros Hc Hne.
  assert (Map_consistent (Map_Set k1 x (Map_Set k2 y v))) as H1
    by (by do 2 apply Set_consistent).
  assert (Map_consistent (Map_Set k2 y (Map_Set k1 x v))) as H2
    by (by do 2 apply Set_consistent).
  assert (Map_m (Map_Set k1 x (Map_Set k2 y v)) = Map_m (Map_Set k2 y (Map_Set k1 x v)))
    as Hm by (rewrite !Set_m; by apply insert_insert_ne).
  unfold Map_consistent in H1, H2. rewrite Hm in H1.
  pose proof (consistent_keys_unique _ _ _ H1 H2) as Hk. revert Hm Hk.
  generalize (Map_Set k1 x (Map_Set k2 y v)), (Map_Set k2 y (Map_Set k1 x v)).
  intros [m1 ks1] [m2 ks2]. simpl. by intros -> ->.
Qed.

(** C6. The Int 5 under a and the String x under b: Map.String prints the
    object with a before b, whichever of the two was set first; the two
    orders leave the same Map, as two calls of Set on different keys do on
    any Map. *)
Theorem Map_String_sorted_whatever_the_order :
  (∀ jsonFloat : float → string,
     Int_Value 0 heap_5_x = 5%Z ∧
     String_Value 0 heap_5_x = "x" ∧
     Map_String jsonFloat heap_5_x map_b_then_a
       = Ok ("{" +:+ quoted "a" +:+ ": 5, " +:+ quoted "b" +:+ ": " +:+ quoted "x" +:+ "}") ∧
     Map_String jsonFloat heap_5_x map_a_then_b
       = Ok ("{" +:+ quoted "a" +:+ ": 5, " +:+ quoted "b" +:+ ": " +:+ quoted "x" +:+ "}") ∧
     map_b_then_a = map_a_then_b) ∧
  (∀ (cs : list Map_call) (h : Heap) (k1 k2 : string) (x y : Var),
     k1 ≠ k2 →
     let v := (Map_run cs (zeroMap, h)).1 in
     Map_Set k1 x (Map_Set k2 y v) = Map_Set k2 y (Map_Set k1 x v)).
Proof.
  split.
  - intros jsonFloat. split_and!; by vm_compute.
  - intros cs h k1 k2 x y Hne. apply Set_commute; [|done].
    apply Map_run_consistent, zero_consistent.
Qed.

Lemma Map_String_sorted_whatever_the_order_witness :
  "a" ≠ "b" ∧
  Map_Set "a" (IntPtr 0) (Map_Set "b" (StringPtr 0) zeroMap)
  = Map_Set "b" (StringPtr 0) (Map_Set "a" (IntPtr 0) zeroMap).
Proof.
  assert ("a" ≠ "b") as Hne by discriminate.
  split; [exact Hne|].
  exact (proj2 Map_String_sorted_whatever_the_order [] emptyHeap "a" "b"
           (IntPtr 0) (StringPtr 0) Hne).
Defined.

(** C10. A String on which Set was never called: Value is the empty
    string, and String prints two quotes, which is a JSON text. *)
Theorem fresh_String_is_empty (h : Heap) :
  let '(p, h') := new_String h in
  String_Value p h' = EmptyString ∧
  String_String p h' = String dquote (String dquote EmptyString) ∧
  String.length (String_String p h') = 2 ∧
  JSON.Valid (String_String p h') = true.
Proof.
  unfold new_String, String_String, String_Value. simpl.
  rewrite (list_lookup_total_middle (h_string h) [] None) by done.
  split_and!; by vm_compute.
Qed.

(** ** Add and AddFloat *)

Lemma wrap64_int64 (z : Z) : int64 z → wrap64 z = z.
Proof. unfold int64, wrap64. intros Hz. rewrite Z.mod_small; lia. Qed.

Lemma alter_last {A : Type} (f : A → A) (l : list A) (x : A) :
  alter f (length l) (l ++ [x]) = l ++ [f x].
Proof.
  rewrite <- (Nat.add_0_r (length l)) at 1. by rewrite alter_app_r.
Qed.

(** float64 addition of +0 and a number gives that number (-0 gives +0,
    which compares equal to it). *)
Lemma Float_add_zero (d : float) :
  PrimFloat.is_nan d = false →
  PrimFloat.eqb (PrimFloat.add PrimFloat.zero d) d = true.
Proof.
  unfold PrimFloat.is_nan. rewrite !FloatAxioms.eqb_spec, FloatAxioms.add_spec.
  change (Prim2SF PrimFloat.zero) with (S754_zero false).
  destruct (Prim2SF d) as [s|s| |s m e]; try discriminate; intros _.
  - by destruct s.
  - by destruct s.
  - unfold SF64add, SFadd, SFeqb, SFcompare.
    rewrite Z.compare_refl. change (Pos.compare_cont Eq m m) with (Pos.compare m m).
    rewrite Pos.compare_refl. by destruct s.
Qed.

(** C5. Map.Add on an absent key allocates an Int, stores it under the
    key and adds delta to it: Get returns that Int, whose value is delta,
    and nothing else in the heap changes.  On a key bound to a Var that is
    not an Int, Add changes neither the Map nor the heap.  AddFloat does
    the same with a Float, whose value is the float64 sum of zero and
    delta, equal to delta unless delta is a NaN. *)
Theorem Map_Add_creates_or_ignores
    (v : Map) (h : Heap) (key : string) (delta : Z) (fdelta : float) :
  int64 delta →
  (Map_m v !! key = None →
     let p := length (h_int h) in
     let v' := (Map_Add key delta v h).1 in
     let h' := (Map_Add key delta v h).2 in
     Map_Get key v' = IntPtr p ∧
     Int_Value p h' = delta ∧
     h' = mkHeap (h_int h ++ [delta]) (h_float h) (h_string h) (h_map h)) ∧
  (∀ x, Map_m v !! key = Some x → (∀ p, x ≠ IntPtr p) →
     Map_Add key delta v h = (v, h)) ∧
  (Map_m v !! key = None →
     let p := length (h_float h) in
     let v' := (Map_AddFloat key fdelta v h).1 in
     let h' := (Map_AddFloat key fdelta v h).2 in
     Map_Get key v' = FloatPtr p ∧
     Float_Value p h' = PrimFloat.add PrimFloat.zero fdelta ∧
     (PrimFloat.is_nan fdelta = false → PrimFloat.eqb (Float_Value p h') fdelta = true) ∧
     h' = mkHeap (h_int h) (h_float h ++ [PrimFloat.add PrimFloat.zero fdelta])
                 (h_string h) (h_map h)) ∧
  (∀ x, Map_m v !! key = Some x → (∀ p, x ≠ FloatPtr p) →
     Map_AddFloat key fdelta v h = (v, h)).
Proof.
  intros Hd. split_and!.
  - intros E. cbv zeta.
    assert ((Map_Add key delta v h).2
            = mkHeap (h_int h ++ [delta]) (h_float h) (h_string h) (h_map h)) as ->.
    { unfold Map_Add, Load, LoadOrStore, new_Int, Int_Add. rewrite E. simpl.
      by rewrite alter_last, Z.add_0_l, wrap64_int64. }
    rewrite Add_map, E. unfold Map_Get, Load, Int_Value. simpl.
    rewrite addKey_m. simpl. rewrite lookup_insert_eq.
    split_and!; [done| |done].
    by rewrite (list_lookup_total_middle (h_int h) [] delta).
  - intros x E Hx. unfold Map_Add, Load. rewrite E. simpl.
    destruct x; try done. by destruct (Hx p).
  - intros E. cbv zeta.
    assert ((Map_AddFloat key fdelta v h).2
            = mkHeap (h_int h) (h_float h ++ [PrimFloat.add PrimFloat.zero fdelta])
                     (h_string h) (h_map h)) as ->.
    { unfold Map_AddFloat, Load, LoadOrStore, new_Float, Float_Add. rewrite E. simpl.
      by rewrite alter_last. }
    rewrite AddFloat_map, E. unfold Map_Get, Load, Float_Value. simpl.
    rewrite addKey_m. simpl. rewrite lookup_insert_eq.
    rewrite (list_lookup_total_middle (h_float h) [] (PrimFloat.add PrimFloat.zero fdelta))
      by done.
    split_and!; [done|done| |done]. apply Float_add_zero.
  - intros x E Hx. unfold Map_AddFloat, Load. rewrite E. simpl.
    destruct x; try done. by destruct (Hx p).
Qed.

Lemma Map_Add_creates_or_ignores_witness :
  (int64 7 ∧ Map_m zeroMap !! "n" = None ∧
   Map_Get "n" (Map_Add "n" 7 zeroMap heap_5_x).1 = IntPtr 1 ∧
   Int_Value 1 (Map_Add "n" 7 zeroMap heap_5_x).2 = 7%Z ∧
   Map_Get "n" (Map_AddFloat "n" PrimFloat.one zeroMap heap_5_x).1 = FloatPtr 0 ∧
   PrimFloat.eqb (Float_Value 0 (Map_AddFloat "n" PrimFloat.one zeroMap heap_5_x).2)
                 PrimFloat.one = true) ∧
  (Map_m map_b_then_a !! "b" = Some (StringPtr 0) ∧
   Map_Add "b" 7 map_b_then_a heap_5_x = (map_b_then_a, heap_5_x) ∧
   Map_m map_b_then_a !! "a" = Some (IntPtr 0) ∧
   Map_AddFloat "a" PrimFloat.one map_b_then_a heap_5_x = (map_b_then_a, heap_5_x)).
Proof.
  assert (int64 7) as H7 by (unfold int64; lia).
  pose proof (Map_Add_creates_or_ignores zeroMap heap_5_x "n" 7 PrimFloat.one H7)
    as (Hnew & _ & Hnewf & _).
  pose proof (Map_Add_creates_or_ignores map_b_then_a heap_5_x "b" 7 PrimFloat.one H7)
    as (_ & Hint & _).
  pose proof (Map_Add_creates_or_ignores map_b_then_a heap_5_x "a" 7 PrimFloat.one H7)
    as (_ & _ & _ & Hfloat).
  split.
  - split; [exact H7|]. split; [reflexivity|].
    destruct (Hnew eq_refl) as (Hget & Hval & _).
    destruct (Hnewf eq_refl) as (Hgetf & _ & Heq & _).
    split; [exact Hget|]. split; [exact Hval|]. split; [exact Hgetf|].
    apply Heq. reflexivity.
  - split; [by vm_compute|]. split; [apply (Hint (StringPtr 0)); [by vm_compute | done]|].
    split; [by vm_compute|]. apply (Hfloat (IntPtr 0)); [by vm_compute | done].
Defined.

(** ** The typed constructors *)

Lemma Get_lookup (name : string) (m : Bucket) :
  Bucket_Get name m = default Nil (Bucket_vars m !! name).
Proof. unfold Bucket_Get, Load. by destruct (Bucket_vars m !! name) as [[]|]. Qed.

(** What is common to the four constructors: a call that returns leaves
    the name bound to the pointer it returned. *)
Ltac constructor_returns E :=
  rewrite Get_lookup in E;
  match type of E with
  | context [Bucket_vars ?m !! ?name] =>
      let x := fresh "x" in
      let Ex := fresh "Ex" in
      destruct (Bucket_vars m !! name) as [x|] eqn:Ex; simpl in E;
      [ destruct x; simpl in E;
        try (rewrite (Publish_dup _ _ _ _ Ex) in E);
        try discriminate E;
        injection E as <- <- <-; by rewrite Get_lookup, Ex
      | rewrite (Publish_fresh _ _ _ Ex) in E;
        injection E as <- <- <-;
        rewrite Get_lookup; simpl; by rewrite lookup_insert_eq ]
  end.

Lemma NewInt_binds (name : string) (m m1 : Bucket) (h h1 : Heap) (p : addr) :
  Bucket_NewInt name m h = (m1, h1, Ok p) → Bucket_Get name m1 = IntPtr p.
Proof. unfold Bucket_NewInt, new_Int, assertion_failed. intros E. constructor_returns E. Qed.

Lemma NewString_binds (name : string) (m m1 : Bucket) (h h1 : Heap) (p : addr) :
  Bucket_NewString name m h = (m1, h1, Ok p) → Bucket_Get name m1 = StringPtr p.
Proof. unfold Bucket_NewString, new_String, assertion_failed. intros E. constructor_returns E. Qed.

Lemma NewMap_binds (name : string) (m m1 : Bucket) (h h1 : Heap) (p : addr) :
  Bucket_NewMap name m h = (m1, h1, Ok p) → Bucket_Get name m1 = MapPtr p.
Proof. unfold Bucket_NewMap, new_Map, assertion_failed. intros E. constructor_returns E. Qed.

Lemma NewFloat_binds (name : string) (m m1 : Bucket) (h h1 : Heap) (p : addr) :
  Bucket_NewFloat name m h = (m1, h1, Ok p) → Bucket_Get name m1 = FloatPtr p.
Proof. unfold Bucket_NewFloat, new_Float, assertion_failed. intros E. constructor_returns E. Qed.

(** On a name that is not registered each constructor returns a new
    variable. *)
Lemma constructors_return_on_a_free_name (name : string) (m : Bucket) (h : Heap) :
  Bucket_vars m !! name = None →
  (Bucket_NewInt name m h).2 = Ok (length (h_int h)) ∧
  (Bucket_NewFloat name m h).2 = Ok (length (h_float h)) ∧
  (Bucket_NewString name m h).2 = Ok (length (h_string h)) ∧
  (Bucket_NewMap name m h).2 = Ok (length (h_map h)).
Proof.
  intros E.
  unfold Bucket_NewInt, Bucket_NewFloat, Bucket_NewString, Bucket_NewMap.
  unfold new_Int, new_Float, new_String, new_Map.
  rewrite Get_lookup, E. simpl. by rewrite !(Publish_fresh _ _ _ E).
Qed.

(** C8. A typed constructor that returned a variable for a name returns
    the same pointer when it is called again for that name, on the registry
    the first call left and whatever was written to the variables in
    between: what is written through the first handle is read through the
    second.  The second call changes nothing (NewFloat allocates a Float
    that it then drops). *)
Theorem typed_constructors_return_the_same_instance
    (name : string) (m m1 : Bucket) (h h1 : Heap) (p : addr) :
  (Bucket_NewInt name m h = (m1, h1, Ok p) →
     ∀ h2, Bucket_NewInt name m1 h2 = (m1, h2, Ok p)) ∧
  (Bucket_NewFloat name m h = (m1, h1, Ok p) →
     ∀ h2, Bucket_NewFloat name m1 h2 = (m1, (new_Float h2).2, Ok p)) ∧
  (Bucket_NewString name m h = (m1, h1, Ok p) →
     ∀ h2, Bucket_NewString name m1 h2 = (m1, h2, Ok p)) ∧
  (Bucket_NewMap name m h = (m1, h1, Ok p) →
     ∀ h2, Bucket_NewMap name m1 h2 = (m1, h2, Ok p)).
Proof.
  split_and!; intros E h2.
  - unfold Bucket_NewInt. by rewrite (NewInt_binds _ _ _ _ _ _ E).
  - unfold Bucket_NewFloat. simpl. by rewrite (NewFloat_binds _ _ _ _ _ _ E).
  - unfold Bucket_NewString. by rewrite (NewString_binds _ _ _ _ _ _ E).
  - unfold Bucket_NewMap. by rewrite (NewMap_binds _ _ _ _ _ _ E).
Qed.

Lemma typed_constructors_return_the_same_instance_witness :
  let ri := Bucket_NewInt "n" zeroBucket emptyHeap in
  let rf := Bucket_NewFloat "n" zeroBucket emptyHeap in
  let rs := Bucket_NewString "n" zeroBucket emptyHeap in
  let rm := Bucket_NewMap "n" zeroBucket emptyHeap in
  (ri.2 = Ok 0 ∧
   (∀ h2, Bucket_NewInt "n" ri.1.1 h2 = (ri.1.1, h2, Ok 0)) ∧
   Int_Value 0 (Int_Add 0 3 ri.1.2) = 3%Z) ∧
  (rf.2 = Ok 0 ∧
   ∀ h2, Bucket_NewFloat "n" rf.1.1 h2 = (rf.1.1, (new_Float h2).2, Ok 0)) ∧
  (rs.2 = Ok 0 ∧
   ∀ h2, Bucket_NewString "n" rs.1.1 h2 = (rs.1.1, h2, Ok 0)) ∧
  (rm.2 = Ok 0 ∧
   ∀ h2, Bucket_NewMap "n" rm.1.1 h2 = (rm.1.1, h2, Ok 0)).
Proof.
  cbv zeta.
  pose proof (typed_constructors_return_the_same_instance "n" zeroBucket) as T.
  split_and!.
  - reflexivity.
  - eapply (proj1 (T _ emptyHeap _ 0)). reflexivity.
  - reflexivity.
  - reflexivity.
  - eapply (proj1 (proj2 (T _ emptyHeap _ 0))). reflexivity.
  - reflexivity.
  - eapply (proj1 (proj2 (proj2 (T _ emptyHeap _ 0)))). reflexivity.
  - reflexivity.
  - eapply (proj2 (proj2 (proj2 (T _ emptyHeap _ 0)))). reflexivity.
Defined.

(** ** The document of the handler *)

Lemma app_cons (a : ascii) (s t : string) : String a s +:+ t = String a (s +:+ t).
Proof. reflexivity. Qed.

Lemma app_empty_r (s : string) : s +:+ EmptyString = s.
Proof. induction s as [|a s IH]; [done|]. by rewrite app_cons, IH. Qed.

Lemma app_assoc' (s t u : string) : (s +:+ t) +:+ u = s +:+ (t +:+ u).
Proof. induction s as [|a s IH]; [done|]. by rewrite !app_cons, IH. Qed.


Section Document.

Variable FormatFloat : float → string.
Variable jsonFloat : float → string.
Variable h : Heap.

Let visit := expvarHandler_visit FormatFloat jsonFloat h.

(** The closure only appends to what was written. *)
Lemma visit_appends (kv : KeyValue) (w : string) (first : bool) :
  ∃ ext, visit kv (w, first) = (w +:+ ext, false).
Proof.
  unfold visit, expvarHandler_visit. destruct first; simpl.
  - eexists. by rewrite !app_assoc'.
  - eexists. by rewrite !app_assoc'.
Qed.

Lemma range_appends (sm : gmap string Var) (ks : list string)
    (w w' : string) (first first' : bool) :
  range_keys sm visit ks (w, first) = Ok (w', first') →
  ∃ ext, w' = w +:+ ext.
Proof.
  revert w first. induction ks as [|k ks IH]; intros w first; cbn [range_keys].
  - intros [= <- <-]. exists EmptyString. by rewrite app_empty_r.
  - destruct (Load sm k) as [i ok]. destruct (assertVar i) as [av|msg]; [|done].
    destruct (visit_appends (mkKeyValue k av) w first) as [e1 ->].
    intros [e2 ->]%IH. exists (e1 +:+ e2). by rewrite app_assoc'.
Qed.



End Document.

(** ** A member without a value is not JSON *)

(** A byte as Quote prints it is skipped by the scanner of string
    literals, or refused (the escapes of Go that JSON does not have). *)
Lemma scan_quoteByte (c : ascii) (rest : string) :
  JSON.scan_string (quoteByte c +:+ rest) = None ∨
  JSON.scan_string (quoteByte c +:+ rest) = JSON.scan_string rest.
Proof.
  destruct c as [[] [] [] [] [] [] [] []];
    match goal with
    | |- context [quoteByte ?c] =>
        let q := eval vm_compute in (quoteByte c) in change (quoteByte c) with q
    end;
    rewrite ?app_cons; change (EmptyString +:+ rest) with rest;
    cbn; (left; reflexivity) || (right; reflexivity).
Qed.


Lemma scan_value_object (n : nat) (r : string) :
  JSON.scan_value (S n) (String "{" (String "010" (String dquote r)))
  = JSON.scan_members n (String dquote r).
Proof. reflexivity. Qed.

Lemma scan_members_unfold (n : nat) (r : string) :
  JSON.scan_members (S n) (String dquote r) =
  match JSON.scan_string r with
  | Some r1 =>
      match JSON.skip_ws r1 with
      | String ":" r2 =>
          match JSON.scan_value n (JSON.skip_ws r2) with
          | Some r3 =>
              match JSON.skip_ws r3 with
              | String "," r4 => JSON.scan_members n (JSON.skip_ws r4)
              | String "}" r4 => Some r4
              | _ => None
              end
          | None => None
          end
      | _ => None
      end
  | None => None
  end.
Proof. reflexivity. Qed.




(** * Further properties of the code *)

(** ** Map: Set, Get, Delete and Init together *)

Lemma Map_Get_lookup (key : string) (v : Map) :
  Map_Get key v = default Nil (Map_m v !! key).
Proof. unfold Map_Get, Load. by destruct (Map_m v !! key) as [[]|]. Qed.

Lemma Map_ext (v1 v2 : Map) :
  Map_m v1 = Map_m v2 → Map_keys v1 = Map_keys v2 → v1 = v2.
Proof. destruct v1, v2. simpl. by intros -> ->. Qed.

(** What addKey does to the slice does not depend on the store. *)
Lemma addKey_keys (key : string) (m1 m2 : gmap string Var) (ks : list string) :
  Map_keys (Map_addKey key (mkMap m1 ks)) = Map_keys (Map_addKey key (mkMap m2 ks)).
Proof. unfold Map_addKey. simpl. by repeat case_match. Qed.

(** X1. Get after Set returns the value that was set under that key, and
    what it returned before under any other key. *)
Theorem Get_after_Set (key k : string) (av : Var) (v : Map) :
  Map_Get k (Map_Set key av v) = if decide (k = key) then av else Map_Get k v.
Proof.
  rewrite !Map_Get_lookup, Set_m. case_decide as Hk.
  - subst k. by rewrite lookup_insert_eq.
  - by rewrite lookup_insert_ne.
Qed.

(** X2. A second Set under the same key replaces the value of the first
    and leaves the Map that the second Set alone gives: the key is not
    added to the slice twice. *)
Theorem Set_replaces (key : string) (x y : Var) (v : Map) :
  Map_Set key y (Map_Set key x v) = Map_Set key y v.
Proof.
  apply Map_ext.
  - by rewrite !Set_m, insert_insert_eq.
  - unfold Map_Set at 1, Map_Set_store, Load.
    rewrite Set_m, lookup_insert_eq. simpl.
    unfold Map_Set, Map_Set_store, Load, LoadOrStore.
    destruct (Map_m v !! key); simpl; [done|]. apply addKey_keys.
Qed.

(** X3. Delete on a Map in a state left by its calls: Get then returns nil
    under the key and what it returned before under any other key, the key
    is no longer in the slice, and a key that is not in the Map leaves the
    Map as it is. *)
Theorem Delete_removes_the_key (key : string) (v : Map) :
  Map_consistent v →
  (∀ k, Map_Get k (Map_Delete key v) = if decide (k = key) then Nil else Map_Get k v) ∧
  (key ∉ Map_keys (Map_Delete key v)) ∧
  (Map_m v !! key = None → Map_Delete key v = v).
Proof.
  intros [Hs Hk]. destruct (Delete_keys_spec key v Hs) as (Hs' & Hk' & Hin & Hout).
  split_and!.
  - intros k. rewrite !Map_Get_lookup.
    destruct (decide (key ∈ Map_keys v)) as [Hyes|Hno].
    + rewrite (Hin Hyes). case_decide as E.
      * subst k. by rewrite lookup_delete_eq.
      * by rewrite lookup_delete_ne.
    + rewrite (Hout Hno). case_decide as E; [|done]. subst k.
      destruct (Map_m v !! key) eqn:E'; [|done].
      destruct Hno. apply Hk. by rewrite E'.
  - rewrite Hk'. by intros [? _].
  - intros E. apply Hout. rewrite Hk, E. by intros [? ?].
Qed.

Lemma Delete_removes_the_key_witness :
  Map_consistent map_b_then_a ∧
  Map_Get "a" (Map_Delete "a" map_b_then_a) = Nil ∧
  Map_Get "b" (Map_Delete "a" map_b_then_a) = StringPtr 0 ∧
  Map_Delete "zz" map_b_then_a = map_b_then_a.
Proof.
  assert (Map_consistent map_b_then_a) as Hc
    by (unfold map_b_then_a; do 2 apply Set_consistent; apply zero_consistent).
  split; [exact Hc|].
  destruct (Delete_removes_the_key "a" map_b_then_a Hc) as (Hget & _ & _).
  destruct (Delete_removes_the_key "zz" map_b_then_a Hc) as (_ & _ & Habsent).
  split; [exact (Hget "a")|]. split; [exact (Hget "b")|].
  apply Habsent. reflexivity.
Defined.

(** X4. Set under a key that is not in the Map, then Delete of that key,
    gives back the Map as it was, store and slice. *)
Theorem Delete_undoes_Set (key : string) (av : Var) (v : Map) :
  Map_consistent v → Map_m v !! key = None →
  Map_Delete key (Map_Set key av v) = v.
Proof.
  intros Hc E.
  pose proof (Set_consistent key av v Hc) as Hc1.
  pose proof (Delete_consistent key _ Hc1) as Hc2.
  destruct Hc1 as [Hs1 Hk1].
  destruct (Delete_keys_spec key _ Hs1) as (_ & _ & Hin & _).
  assert (Map_m (Map_Delete key (Map_Set key av v)) = Map_m v) as Hm.
  { rewrite Hin; [by rewrite Set_m, delete_insert_eq, delete_id|].
    apply Hk1. by rewrite Set_m, lookup_insert_eq. }
  apply Map_ext; [done|].
  unfold Map_consistent in Hc2. rewrite Hm in Hc2.
  by apply (consistent_keys_unique (Map_m v)).
Qed.

Lemma Delete_undoes_Set_witness :
  Map_consistent map_b_then_a ∧ Map_m map_b_then_a !! "aa" = None ∧
  Map_Delete "aa" (Map_Set "aa" (IntPtr 0) map_b_then_a) = map_b_then_a.
Proof.
  assert (Map_consistent map_b_then_a) as Hc
    by (unfold map_b_then_a; do 2 apply Set_consistent; apply zero_consistent).
  assert (Map_m map_b_then_a !! "aa" = None) as E by reflexivity.
  split; [exact Hc|]. split; [exact E|].
  exact (Delete_undoes_Set "aa" (IntPtr 0) map_b_then_a Hc E).
Defined.

(** X5. Init leaves the Map empty, whatever it held: Get returns nil under
    every key, Do calls its visitor for nothing, and String prints the
    empty object. *)
Theorem Init_clears (v : Map) :
  Map_Init v = zeroMap ∧
  (∀ k, Map_Get k (Map_Init v) = Nil) ∧
  (∀ (S : Type) (f : KeyValue → S → S) (s : S), Map_Do f (Map_Init v) s = Ok s) ∧
  (∀ (jsonFloat : float → string) (h : Heap),
     Map_String jsonFloat h (Map_Init v) = Ok "{}").
Proof. rewrite Init_empty. split_and!; done. Qed.

(** ** Do, on any state *)

Lemma assertVar_Ok (x : Var) : x ≠ Nil → assertVar x = Ok x.
Proof. by destruct x. Qed.

Lemma range_keys_Ok {S : Type} (sm : gmap string Var) (f : KeyValue → S → S)
    (ks : list string) (s : S) :
  (∃ s', range_keys sm f ks s = Ok s') ↔ Forall (loadable sm) ks.
Proof.
  revert s. induction ks as [|k ks IH]; intros s; simpl.
  - split; [constructor | by exists s].
  - rewrite Forall_cons. unfold Load.
    destruct (sm !! k) as [x|] eqn:E.
    + assert (x = Nil ∨ x ≠ Nil) as [->|Hx] by (destruct x; auto).
      * simpl. split; [by intros [? ?] | intros [(y & Hy1 & Hy2) _]; congruence].
      * rewrite (assertVar_Ok x Hx), IH. split; [|tauto].
        intros H. split; [by exists x | done].
    + simpl. split; [by intros [? ?] | intros [(y & Hy1 & _) _]; congruence].
Qed.

(** X6. On a Map that a sequence of calls has left with no nil in it, Do
    returns, and the entries its visitor was called with are the keys of
    the Map, each once, in strictly ascending order, with the value the
    store holds; any visitor is called with exactly these entries, in this
    order. *)
Theorem Do_calls_once_per_key (cs : list Map_call) (h : Heap) :
  let v := (Map_run cs (zeroMap, h)).1 in
  no_nil (Map_m v) →
  ∃ seen,
    Map_Do record v [] = Ok seen ∧
    StronglySorted (strict String.le) (map Key seen) ∧
    (∀ k, k ∈ map Key seen ↔ is_Some (Map_m v !! k)) ∧
    (∀ kv, kv ∈ seen → Map_m v !! Key kv = Some (Value kv)) ∧
    (∀ (S : Type) (f : KeyValue → S → S) (s : S),
        Map_Do f v s = Ok (foldl (fun s kv => f kv s) s seen)).
Proof.
  intros v Hnn.
  destruct (Do_visits_each_key_once (Map_m v) (Map_keys v))
    as (seen & Hdo & _ & Hs & _ & Hk & Hval & Hf).
  { apply Map_run_consistent, zero_consistent. }
  { done. }
  exists seen. unfold Map_Do. by split_and!.
Qed.

Lemma Do_calls_once_per_key_witness :
  let cs := [CallSet "b" (StringPtr 0); CallAdd "a" 5] in
  let v := (Map_run cs (zeroMap, emptyHeap)).1 in
  no_nil (Map_m v) ∧
  ∃ seen, Map_Do record v [] = Ok seen ∧ map Key seen = ["a"; "b"].
Proof.
  cbv zeta.
  assert (no_nil (Map_m (Map_run [CallSet "b" (StringPtr 0); CallAdd "a" 5]
                           (zeroMap, emptyHeap)).1)) as Hnn.
  { intros k. change (Map_run _ _).1
      with (Map_Add "a" 5 (Map_Set "b" (StringPtr 0) zeroMap) emptyHeap).1.
    rewrite Add_map, Set_m. simpl. rewrite lookup_insert_ne by done.
    rewrite lookup_empty, addKey_m. simpl.
    destruct (decide (k = "a")) as [->|Ha]; [by rewrite lookup_insert_eq|].
    rewrite lookup_insert_ne by done.
    destruct (decide (k = "b")) as [->|Hb]; [by rewrite lookup_insert_eq|].
    by rewrite lookup_insert_ne, lookup_empty. }
  split; [exact Hnn|].
  destruct (Do_calls_once_per_key [CallSet "b" (StringPtr 0); CallAdd "a" 5]
              emptyHeap Hnn) as (seen & Hdo & _).
  exists seen. split; [exact Hdo|].
  vm_compute in Hdo. by injection Hdo as <-.
Defined.

(** X7. Do returns exactly when every key of the slice has a value in the
    store that is not nil, and panics otherwise; so do Map.String and, on a
    Bucket, the handler, whatever the values are otherwise. *)
Theorem Do_returns_iff_loadable :
  (∀ (S : Type) (f : KeyValue → S → S) (v : Map) (s : S),
     (∃ s', Map_Do f v s = Ok s') ↔ Forall (loadable (Map_m v)) (Map_keys v)) ∧
  (∀ (jsonFloat : float → string) (h : Heap) (v : Map),
     (∃ out, Map_String jsonFloat h v = Ok out)
     ↔ Forall (loadable (Map_m v)) (Map_keys v)) ∧
  (∀ (FormatFloat jsonFloat : float → string) (h : Heap) (m : Bucket),
     (∃ out, expvarHandler FormatFloat jsonFloat h m = Ok out)
     ↔ Forall (loadable (Bucket_vars m)) (Bucket_varKeys m)).
Proof.
  split_and!.
  - intros S f v s. apply range_keys_Ok.
  - intros jsonFloat h v. unfold Map_String, Map_Do.
    rewrite <- (range_keys_Ok _ (Map_String_visit jsonFloat h) _ ("{", true)).
    destruct (range_keys _ _ _ _) as [[b first]|msg].
    + split; intros _; eauto.
    + split; intros [? ?]; done.
  - intros FormatFloat jsonFloat h m. unfold expvarHandler, Bucket_Do.
    rewrite <- (range_keys_Ok _ (expvarHandler_visit FormatFloat jsonFloat h) _
                  ("{" +:+ newline, true)).
    destruct (range_keys _ _ _ _) as [[w first]|msg].
    + split; intros _; eauto.
    + split; intros [? ?]; done.
Qed.

(** ** What the renderings print *)

(** A closure that writes the separator, unless it is the first to write,
    and then its entry: the loop writes the entries joined. *)
Lemma range_keys_join (sm : gmap string Var)
    (visit : KeyValue → string * bool → string * bool)
    (sep : string) (entry : string → string) (P : string → Prop) (ks : list string) :
  (∀ k x b first, sm !! k = Some x → x ≠ Nil → P k →
     visit (mkKeyValue k x) (b, first)
     = ((if first then b else b +:+ sep) +:+ entry k, false)) →
  Forall (λ k, loadable sm k ∧ P k) ks →
  ∀ b first,
    range_keys sm visit ks (b, first) =
    Ok match ks with
       | [] => (b, first)
       | _ :: _ => ((if first then b else b +:+ sep) +:+ join sep (map entry ks), false)
       end.
Proof.
  intros Hvisit Hks. induction Hks as [|k ks [(x & Hx & Hnn) HP] Hks IH]; intros b first.
  - done.
  - cbn [range_keys]. unfold Load. rewrite Hx, (assertVar_Ok x Hnn).
    rewrite (Hvisit k x b first Hx Hnn HP), IH.
    destruct ks as [|k2 ks]; [done|].
    cbn [map join]. by rewrite !app_assoc'.
Qed.





(** ** addKey and Add *)

(** On a sorted slice the bisection lands on the key, when it is there. *)
Lemma SearchStrings_finds (ks : list string) (key : string) :
  StronglySorted (strict String.le) ks → key ∈ ks →
  ks !! SearchStrings ks key = Some key.
Proof.
  intros Hs Hin.
  destruct (SearchStrings_split ks key Hs) as (Hr & Hlo & Hhi).
  set (i := SearchStrings ks key) in *.
  rewrite <- (take_drop i ks) in Hin. apply elem_of_app in Hin as [Hin|Hin].
  { rewrite Forall_forall in Hlo. by destruct (lt_neq key key); [apply Hlo|]. }
  destruct (drop i ks) as [|a rest] eqn:Hd; [by apply not_elem_of_nil in Hin|].
  assert (ks !! i = Some a) as Ha.
  { rewrite <- (Nat.add_0_r i), <- lookup_drop, Hd. done. }
  rewrite Ha. f_equal.
  apply Forall_cons in Hhi as [Hka _].
  apply elem_of_cons in Hin as [->|Hin]; [done|].
  pose proof Hs as Hs'. rewrite <- (take_drop i ks), Hd in Hs'.
  apply StronglySorted_app in Hs' as (_ & _ & Hs').
  apply StronglySorted_cons in Hs' as [Hall _]. rewrite Forall_forall in Hall.
  destruct (Hall key Hin) as [_ Hn]. by destruct Hn.
Qed.

(** X10. addKey on a sorted slice without repetition: the slice stays
    sorted without repetition, holds the key and the keys it held, and the
    store is untouched; a key that is already there changes nothing, and a
    new key makes the slice one longer. *)
Theorem addKey_inserts_in_order (key : string) (v : Map) :
  StronglySorted (strict String.le) (Map_keys v) →
  StronglySorted (strict String.le) (Map_keys (Map_addKey key v)) ∧
  (∀ k, k ∈ Map_keys (Map_addKey key v) ↔ k = key ∨ k ∈ Map_keys v) ∧
  Map_m (Map_addKey key v) = Map_m v ∧
  (key ∈ Map_keys v → Map_addKey key v = v) ∧
  (key ∉ Map_keys v → length (Map_keys (Map_addKey key v)) = S (length (Map_keys v))).
Proof.
  intros Hs. destruct (addKey_spec key v Hs) as (Hm & Hs' & Hk').
  split_and!; try done.
  - intros Hin. pose proof (SearchStrings_finds _ _ Hs Hin) as Hfind.
    unfold Map_addKey.
    rewrite (proj2 (Nat.leb_gt _ _) (lookup_lt_Some _ _ _ Hfind)).
    by rewrite (list_lookup_total_correct _ _ _ Hfind), String.eqb_refl.
  - intros Hnot.
    assert (Map_keys (Map_addKey key v) ≡ₚ key :: Map_keys v) as ->; [|done].
    apply NoDup_Permutation.
    + by apply sorted_NoDup.
    + apply NoDup_cons. split; [done | by apply sorted_NoDup].
    + intros k. by rewrite Hk', elem_of_cons.
Qed.

Lemma addKey_inserts_in_order_witness :
  StronglySorted (strict String.le) (Map_keys map_b_then_a) ∧
  Map_keys (Map_addKey "aa" map_b_then_a) = ["a"; "aa"; "b"] ∧
  Map_addKey "b" map_b_then_a = map_b_then_a.
Proof.
  assert (StronglySorted (strict String.le) (Map_keys map_b_then_a)) as Hs.
  { apply (Set_consistent "a" (IntPtr 0)), Set_consistent, zero_consistent. }
  split; [exact Hs|]. split; [reflexivity|].
  apply (addKey_inserts_in_order "b" map_b_then_a Hs).
  change (Map_keys map_b_then_a) with ["a"; "b"].
  apply list_elem_of_further, list_elem_of_here.
Defined.

Lemma wrap64_add (a b : Z) : wrap64 (wrap64 a + b) = wrap64 (a + b).
Proof.
  unfold wrap64. f_equal.
  replace ((a + 2 ^ 63) mod 2 ^ 64 - 2 ^ 63 + b + 2 ^ 63)%Z
    with ((a + 2 ^ 63) mod 2 ^ 64 + b)%Z by lia.
  rewrite Zplus_mod_idemp_l. f_equal. lia.
Qed.

Lemma Add_absent (key : string) (d : Z) (v : Map) (h : Heap) :
  Map_m v !! key = None →
  Map_Add key d v h =
  (Map_addKey key (mkMap (<[key := IntPtr (length (h_int h))]> (Map_m v)) (Map_keys v)),
   mkHeap (h_int h ++ [wrap64 d]) (h_float h) (h_string h) (h_map h)).
Proof.
  intros E. unfold Map_Add, Load, LoadOrStore, new_Int, Int_Add. rewrite E. simpl.
  by rewrite alter_last, Z.add_0_l.
Qed.

Lemma Add_present (key : string) (d : Z) (v : Map) (h : Heap) (p : addr) :
  Map_m v !! key = Some (IntPtr p) → Map_Add key d v h = (v, Int_Add p d h).
Proof. intros E. unfold Map_Add, Load. by rewrite E. Qed.

(** X11. Add under a key that is not in the Map, followed by any number of
    Add under that key: the Map is the one the first Add left, with the key
    bound to the Int that Add allocated, and that Int holds the sum of the
    deltas, wrapped around as an int64; nothing else in the heap changes. *)
Theorem Add_accumulates (key : string) (d : Z) (ds : list Z) (v : Map) (h : Heap) :
  Map_m v !! key = None →
  let st := foldl (fun st d => Map_Add key d st.1 st.2) (v, h) (d :: ds) in
  let p := length (h_int h) in
  st.1 = (Map_Add key d v h).1 ∧
  Map_Get key st.1 = IntPtr p ∧
  Int_Value p st.2 = wrap64 (d + foldr Z.add 0%Z ds) ∧
  st.2 = mkHeap (h_int h ++ [wrap64 (d + foldr Z.add 0%Z ds)])
                (h_float h) (h_string h) (h_map h).
Proof.
  intros E. cbv zeta. cbn [foldl]. rewrite (Add_absent _ _ _ _ E). cbn [fst snd].
  set (v1 := Map_addKey key _).
  assert (Map_m v1 !! key = Some (IntPtr (length (h_int h)))) as E1.
  { unfold v1. rewrite addKey_m. simpl. by rewrite lookup_insert_eq. }
  assert (∀ x, foldl (fun st d => Map_Add key d st.1 st.2)
                 (v1, mkHeap (h_int h ++ [wrap64 x]) (h_float h) (h_string h) (h_map h)) ds
               = (v1, mkHeap (h_int h ++ [wrap64 (x + foldr Z.add 0%Z ds)])
                             (h_float h) (h_string h) (h_map h))) as Hfold.
  { induction ds as [|d' ds IH]; intros x; cbn [foldl foldr].
    - by rewrite Z.add_0_r.
    - cbn [fst snd]. rewrite (Add_present _ _ _ _ _ E1). unfold Int_Add. cbn [h_int h_float h_string h_map].
      by rewrite alter_last, wrap64_add, IH, Z.add_assoc. }
  rewrite Hfold. cbn [fst snd].
  split_and!; [by rewrite (Add_absent _ _ _ _ E)| | |done].
  - rewrite Map_Get_lookup, E1. done.
  - unfold Int_Value. cbn [h_int].
    by rewrite (list_lookup_total_middle (h_int h) [] _).
Qed.

Lemma Add_accumulates_witness :
  Map_m zeroMap !! "hits" = None ∧
  Int_Value 0 (foldl (fun st d => Map_Add "hits" d st.1 st.2) (zeroMap, emptyHeap)
                 [1; 1; 1]%Z).2 = 3%Z.
Proof.
  split; [reflexivity|].
  exact (proj1 (proj2 (proj2 (Add_accumulates "hits" 1 [1; 1]%Z zeroMap emptyHeap eq_refl)))).
Defined.

(** ** Int *)

Lemma wrap64_range (z : Z) : int64 (wrap64 z).
Proof.
  unfold int64, wrap64.
  pose proof (Z.mod_pos_bound (z + 2 ^ 63) (2 ^ 64) ltac:(lia)). lia.
Qed.

Lemma Heap_ext (h1 h2 : Heap) :
  h_int h1 = h_int h2 → h_float h1 = h_float h2 →
  h_string h1 = h_string h2 → h_map h1 = h_map h2 → h1 = h2.
Proof. destruct h1, h2. simpl. by intros -> -> -> ->. Qed.

(** X12. Where every Int holds an int64, it still does after Add, Increment
    and Decrement, whatever the delta: the sum wraps around.  Two Add on
    one Int are the Add of the sum of the deltas, and Increment and
    Decrement undo each other, also at the largest and the smallest
    int64. *)
Theorem Int_Add_wraps_and_composes (p : addr) (d1 d2 : Z) (h : Heap) :
  Forall int64 (h_int h) →
  Forall int64 (h_int (Int_Add p d1 h)) ∧
  Int_Add p d2 (Int_Add p d1 h) = Int_Add p (d1 + d2) h ∧
  Int_Decrement p (Int_Increment p h) = h ∧
  Int_Increment p (Int_Decrement p h) = h.
Proof.
  intros Hh.
  assert (∀ a b, Int_Add p b (Int_Add p a h) = Int_Add p (a + b) h) as Hcomp.
  { intros a b. unfold Int_Add. simpl. f_equal.
    rewrite list_alter_alter_eq. apply list_alter_ext; [|done].
    intros x _. simpl. by rewrite wrap64_add, Z.add_assoc. }
  assert (Int_Add p 0 h = h) as Hzero.
  { apply Heap_ext; try done. unfold Int_Add. simpl.
    rewrite <- (list_alter_id id (h_int h) p) at 2 by done.
    apply list_alter_ext; [|done]. intros x Hx.
    rewrite Z.add_0_r. apply wrap64_int64.
    rewrite Forall_forall in Hh. apply Hh. by eapply list_elem_of_lookup_2. }
  split_and!.
  - apply Forall_alter; [done|]. intros x _ _. apply wrap64_range.
  - apply Hcomp.
  - unfold Int_Decrement, Int_Increment. by rewrite Hcomp.
  - unfold Int_Decrement, Int_Increment. by rewrite Hcomp.
Qed.

Lemma Int_Add_wraps_and_composes_witness :
  let h := Int_Set 0 (2 ^ 63 - 1) (new_Int emptyHeap).2 in
  Forall int64 (h_int h) ∧
  Int_Value 0 (Int_Increment 0 h) = (- 2 ^ 63)%Z ∧
  Int_Decrement 0 (Int_Increment 0 h) = h.
Proof.
  cbv zeta.
  assert (Forall int64 (h_int (Int_Set 0 (2 ^ 63 - 1) (new_Int emptyHeap).2))) as Hh.
  { repeat constructor; vm_compute; congruence. }
  split; [exact Hh|]. split; [reflexivity|].
  exact (proj1 (proj2 (proj2 (Int_Add_wraps_and_composes 0 0 0 _ Hh)))).
Defined.

(** ** The scalars print JSON *)

(** A byte as encoding/json prints it inside a string is skipped by the
    scanner of string literals. *)
Lemma scan_jsonByte (c : ascii) (rest : string) :
  JSON.scan_string (jsonByte c +:+ rest) = JSON.scan_string rest.
Proof.
  destruct c as [[] [] [] [] [] [] [] []];
    match goal with
    | |- context [jsonByte ?c] =>
        let q := eval vm_compute in (jsonByte c) in change (jsonByte c) with q
    end;
    rewrite ?app_cons; change (EmptyString +:+ rest) with rest;
    cbn; reflexivity.
Qed.

Lemma scan_jsonString (s r : string) :
  JSON.scan_string (concatMap jsonByte s +:+ String dquote r) = Some r.
Proof.
  induction s as [|c s IH]; [done|].
  cbn [concatMap]. by rewrite app_assoc', scan_jsonByte.
Qed.

(** A string as encoding/json prints it is one JSON value, whatever
    follows it. *)
Lemma scan_value_jsonString (n : nat) (s t : string) :
  JSON.scan_value (S n) (jsonString s +:+ t) = Some t.
Proof.
  unfold jsonString. rewrite app_cons, app_assoc'.
  change (String dquote EmptyString +:+ t) with (String dquote t).
  exact (scan_jsonString s t).
Qed.

Lemma Valid_jsonString (s : string) : JSON.Valid (jsonString s) = true.
Proof.
  unfold JSON.Valid.
  change (JSON.skip_ws (jsonString s)) with (jsonString s).
  rewrite <- (app_empty_r (jsonString s)) at 2.
  by rewrite scan_value_jsonString.
Qed.

(** X13. The String method of a String returns a JSON text, a string
    literal, whatever was stored, control characters, quotes and
    backslashes included; json.Marshal gives the same bytes for the
    variable. *)
Theorem String_String_is_JSON (jsonFloat : float → string) (p : addr) (h : Heap) :
  JSON.Valid (String_String p h) = true ∧
  MarshalVar jsonFloat h (StringPtr p) = Some (String_String p h).
Proof. split; [apply Valid_jsonString | done]. Qed.

Lemma skip_digits_uint (u : Decimal.uint) :
  JSON.skip_digits (NilEmpty.string_of_uint u) = EmptyString.
Proof. induction u; simpl; auto. Qed.

Lemma nzhead_not_D0 (u u' : Decimal.uint) : Decimal.nzhead u ≠ Decimal.D0 u'.
Proof. induction u; simpl; congruence. Qed.

(** The decimal digits of a positive number do not start with 0. *)
Lemma to_uint_not_D0 (q : positive) (u : Decimal.uint) : Pos.to_uint q ≠ Decimal.D0 u.
Proof.
  intros E.
  assert (Decimal.unorm (Pos.to_uint q) = Pos.to_uint q) as Hn.
  { pose proof (DecimalPos.Unsigned.of_to q) as H1.
    pose proof (DecimalPos.Unsigned.to_of (Pos.to_uint q)) as H2.
    rewrite H1 in H2. simpl in H2. by symmetry. }
  unfold Decimal.unorm in Hn.
  destruct (Decimal.nzhead (Pos.to_uint q)) eqn:Hz;
    try (rewrite E in Hn; discriminate Hn).
  - by destruct (DecimalPos.Unsigned.to_uint_nonzero q).
  - by destruct (nzhead_not_D0 _ _ Hz).
Qed.

Lemma Valid_digits (u : Decimal.uint) :
  u ≠ Decimal.Nil → (∀ u', u ≠ Decimal.D0 u') →
  JSON.Valid (NilEmpty.string_of_uint u) = true ∧
  JSON.Valid (String "-" (NilEmpty.string_of_uint u)) = true.
Proof.
  intros Hnil H0.
  destruct u as [|u|u|u|u|u|u|u|u|u|u]; try done; try (by destruct (H0 u));
    pose proof (skip_digits_uint u) as Hsd;
    cbn [NilEmpty.string_of_uint];
    set (r := NilEmpty.string_of_uint u) in *; clearbody r;
    unfold JSON.Valid;
    change (JSON.skip_ws (String ?c ?x)) with (String c x);
    cbn [String.length];
    match goal with
    | |- context [JSON.scan_value (S ?n) (String "-" ?x)] =>
        change (JSON.scan_value (S n) (String "-" x))
          with (number_tail (Some (JSON.skip_digits r)))
    end;
    match goal with
    | |- context [JSON.scan_value (S ?n) ?x] =>
        change (JSON.scan_value (S n) x) with (number_tail (Some (JSON.skip_digits r)))
    end;
    by rewrite Hsd.
Qed.

Lemma Valid_FormatInt (z : Z) : JSON.Valid (FormatInt z) = true.
Proof.
  unfold FormatInt. destruct z as [|q|q]; [done| |].
  - simpl. pose proof (DecimalPos.Unsigned.to_uint_nonnil q) as Hnil.
    pose proof (to_uint_not_D0 q) as H0.
    destruct (Valid_digits (Pos.to_uint q) Hnil H0) as [Hv _].
    unfold NilZero.string_of_uint. by destruct (Pos.to_uint q).
  - simpl. pose proof (DecimalPos.Unsigned.to_uint_nonnil q) as Hnil.
    pose proof (to_uint_not_D0 q) as H0.
    destruct (Valid_digits (Pos.to_uint q) Hnil H0) as [_ Hv].
    unfold NilZero.string_of_uint. by destruct (Pos.to_uint q).
Qed.

(** X14. The String method of an Int returns a JSON text, a number,
    whatever the Int holds; json.Marshal gives the same bytes for the
    variable. *)
Theorem Int_String_is_JSON (jsonFloat : float → string) (p : addr) (h : Heap) :
  JSON.Valid (Int_String p h) = true ∧
  MarshalVar jsonFloat h (IntPtr p) = Some (Int_String p h).
Proof. split; [apply Valid_FormatInt | done]. Qed.

(** ** Set and Value of the scalars, and a Float that holds a NaN *)



Lemma is_nan_spec (x : float) : PrimFloat.is_nan x = true ↔ Prim2SF x = S754_nan.
Proof.
  unfold PrimFloat.is_nan. rewrite FloatAxioms.eqb_spec.
  destruct (Prim2SF x) as [s|s| |s m e]; simpl.
  - by destruct s.
  - by destruct s.
  - done.
  - unfold SFeqb, SFcompare. rewrite Z.compare_refl.
    change (Pos.compare_cont Eq m m) with (Pos.compare m m).
    rewrite Pos.compare_refl. by destruct s.
Qed.

Lemma add_nan (x d : float) :
  PrimFloat.is_nan d = true → PrimFloat.is_nan (PrimFloat.add x d) = true.
Proof.
  rewrite !is_nan_spec, FloatAxioms.add_spec. intros ->.
  unfold SF64add, SFadd. by destruct (Prim2SF x).
Qed.

Lemma nan_add (x d : float) :
  PrimFloat.is_nan x = true → PrimFloat.is_nan (PrimFloat.add x d) = true.
Proof.
  rewrite !is_nan_spec, FloatAxioms.add_spec. by intros ->.
Qed.

(** X16. Add of a NaN to a Float leaves a NaN in it, and so does every
    Add after that; json.Marshal then refuses the variable, which is what
    Map.String asks for each of its values. *)
Theorem Float_Add_NaN_stays (jsonFloat : float → string) (p : addr) (d : float)
    (ds : list float) (h : Heap) :
  p < length (h_float h) → PrimFloat.is_nan d = true →
  let h' := foldl (fun h d => Float_Add p d h) (Float_Add p d h) ds in
  PrimFloat.is_nan (Float_Value p h') = true ∧
  MarshalVar jsonFloat h' (FloatPtr p) = None.
Proof.
  intros Hp Hd. cbv zeta.
  assert (∀ h0, p < length (h_float h0) →
            PrimFloat.is_nan (Float_Value p h0) = true →
            PrimFloat.is_nan
              (Float_Value p (foldl (fun h d => Float_Add p d h) h0 ds)) = true) as Hfold.
  { induction ds as [|d' ds IH]; intros h0 Hp0 Hn; [done|].
    cbn [foldl]. apply IH.
    - unfold Float_Add. simpl. by rewrite length_alter.
    - unfold Float_Value, Float_Add. simpl.
      rewrite list_lookup_total_alter_eq by done. by apply nan_add. }
  assert (PrimFloat.is_nan
            (Float_Value p (foldl (fun h d => Float_Add p d h) (Float_Add p d h) ds)) = true)
    as Hnan.
  { apply Hfold.
    - unfold Float_Add. simpl. by rewrite length_alter.
    - unfold Float_Value, Float_Add. simpl.
      rewrite list_lookup_total_alter_eq by done. by apply add_nan. }
  split; [done|]. unfold MarshalVar. by rewrite Hnan.
Qed.

Lemma Float_Add_NaN_stays_witness :
  let h := (new_Float emptyHeap).2 in
  0 < length (h_float h) ∧ PrimFloat.is_nan PrimFloat.nan = true ∧
  MarshalVar (fun _ => EmptyString)
    (foldl (fun h d => Float_Add 0 d h) (Float_Add 0 PrimFloat.nan h) [PrimFloat.one])
    (FloatPtr 0) = None.
Proof.
  cbv zeta.
  assert (0 < length (h_float (new_Float emptyHeap).2)) as Hp by (simpl; lia).
  assert (PrimFloat.is_nan PrimFloat.nan = true) as Hn by reflexivity.
  split; [exact Hp|]. split; [exact Hn|].
  exact (proj2 (Float_Add_NaN_stays (fun _ => EmptyString) 0 PrimFloat.nan
                  [PrimFloat.one] _ Hp Hn)).
Defined.

(** ** Bucket: Publish, Get and the typed constructors *)

(** X17. Publish of a name that is not registered returns; Get then
    returns the variable under that name and what it returned before under
    any other name, the name is in the key slice with the names that were
    there, and the slice is sorted and matches the store if it did. *)
Theorem Publish_registers (name : string) (v : Var) (m : Bucket) :
  Bucket_consistent m → Bucket_vars m !! name = None →
  (Bucket_Publish name v m).2 = Ok tt ∧
  (∀ k, Bucket_Get k (Bucket_Publish name v m).1
        = if decide (k = name) then v else Bucket_Get k m) ∧
  (∀ k, k ∈ Bucket_varKeys (Bucket_Publish name v m).1
        ↔ k = name ∨ k ∈ Bucket_varKeys m) ∧
  Bucket_consistent (Bucket_Publish name v m).1.
Proof.
  intros Hc E. pose proof (Publish_consistent name v m Hc) as Hc'.
  rewrite (Publish_fresh _ _ _ E) in *. simpl. split_and!; [done| | |done].
  - intros k. rewrite !Get_lookup. simpl. case_decide as Hk.
    + subst k. by rewrite lookup_insert_eq.
    + by rewrite lookup_insert_ne.
  - intros k. destruct Hc as [Hs Hk].
    apply Strings_spec; [done|]. rewrite Hk, E. by intros [? ?].
Qed.

Lemma Publish_registers_witness :
  let m := (Bucket_Publish "x" (IntPtr 0) zeroBucket).1 in
  Bucket_consistent m ∧ Bucket_vars m !! "a" = None ∧
  Bucket_Get "a" (Bucket_Publish "a" (StringPtr 0) m).1 = StringPtr 0 ∧
  Bucket_Get "x" (Bucket_Publish "a" (StringPtr 0) m).1 = IntPtr 0.
Proof.
  cbv zeta.
  assert (Bucket_consistent (Bucket_Publish "x" (IntPtr 0) zeroBucket).1) as Hc
    by apply Publish_consistent, zero_consistent.
  assert (Bucket_vars (Bucket_Publish "x" (IntPtr 0) zeroBucket).1 !! "a" = None) as E
    by reflexivity.
  destruct (Publish_registers "a" (StringPtr 0) _ Hc E) as (_ & Hget & _).
  split; [exact Hc|]. split; [exact E|].
  split; [exact (Hget "a") | exact (Hget "x")].
Defined.

(** X18. A typed constructor called with a name that is bound to a Var of
    another kind, or to nil, panics and leaves the registry as it is; the
    variable bound to the name is not replaced. *)
Theorem constructor_of_another_kind_panics (name : string) (x : Var) (m : Bucket) (h : Heap) :
  Bucket_vars m !! name = Some x →
  ((∀ p, x ≠ IntPtr p) →
     ∃ h' msg, Bucket_NewInt name m h = (m, h', Panic msg)) ∧
  ((∀ p, x ≠ FloatPtr p) →
     ∃ h' msg, Bucket_NewFloat name m h = (m, h', Panic msg)) ∧
  ((∀ p, x ≠ StringPtr p) →
     ∃ h' msg, Bucket_NewString name m h = (m, h', Panic msg)) ∧
  ((∀ p, x ≠ MapPtr p) →
     ∃ h' msg, Bucket_NewMap name m h = (m, h', Panic msg)).
Proof.
  intros E.
  unfold Bucket_NewInt, Bucket_NewFloat, Bucket_NewString, Bucket_NewMap.
  unfold new_Int, new_Float, new_String, new_Map, assertion_failed.
  rewrite Get_lookup, E. simpl.
  split_and!; intros Hx; destruct x as [|p|p|p|p|f]; simpl;
    try (by destruct (Hx p));
    try (rewrite (Publish_dup _ _ _ _ E));
    by eexists _, _.
Qed.

Lemma constructor_of_another_kind_panics_witness :
  let m := (Bucket_Publish "x" (StringPtr 0) zeroBucket).1 in
  Bucket_vars m !! "x" = Some (StringPtr 0) ∧
  ∃ h' msg, Bucket_NewInt "x" m heap_5_x = (m, h', Panic msg).
Proof.
  cbv zeta.
  assert (Bucket_vars (Bucket_Publish "x" (StringPtr 0) zeroBucket).1 !! "x"
          = Some (StringPtr 0)) as E by reflexivity.
  split; [exact E|].
  apply (proj1 (constructor_of_another_kind_panics "x" (StringPtr 0) _ heap_5_x E)).
  intros p. discriminate.
Defined.

(** X19. A typed constructor called with a name that is not registered
    returns a variable that no other pointer refers to, holding the zero
    value of its type (0, +0, the empty string, the empty Map), and
    registers it: Get returns it under the name. *)
Theorem constructor_on_a_free_name (name : string) (m : Bucket) (h : Heap) :
  Bucket_vars m !! name = None →
  (∃ m' h', Bucket_NewInt name m h = (m', h', Ok (length (h_int h))) ∧
            Bucket_Get name m' = IntPtr (length (h_int h)) ∧
            h_int h' = h_int h ++ [0%Z] ∧
            Int_Value (length (h_int h)) h' = 0%Z) ∧
  (∃ m' h', Bucket_NewFloat name m h = (m', h', Ok (length (h_float h))) ∧
            Bucket_Get name m' = FloatPtr (length (h_float h)) ∧
            h_float h' = h_float h ++ [PrimFloat.zero] ∧
            Float_Value (length (h_float h)) h' = PrimFloat.zero) ∧
  (∃ m' h', Bucket_NewString name m h = (m', h', Ok (length (h_string h))) ∧
            Bucket_Get name m' = StringPtr (length (h_string h)) ∧
            h_string h' = h_string h ++ [None] ∧
            String_Value (length (h_string h)) h' = EmptyString) ∧
  (∃ m' h', Bucket_NewMap name m h = (m', h', Ok (length (h_map h))) ∧
            Bucket_Get name m' = MapPtr (length (h_map h)) ∧
            h_map h' = h_map h ++ [zeroMap]).
Proof.
  intros E.
  unfold Bucket_NewInt, Bucket_NewFloat, Bucket_NewString, Bucket_NewMap.
  unfold new_Int, new_Float, new_String, new_Map.
  rewrite Get_lookup, E. simpl. rewrite !(Publish_fresh _ _ _ E).
  split_and!; eexists _, _; (split; [reflexivity|]);
    rewrite Get_lookup; simpl; rewrite lookup_insert_eq; split_and!; try done.
  - unfold Int_Value. simpl. by rewrite (list_lookup_total_middle (h_int h) [] 0%Z).
  - unfold Float_Value. simpl.
    by rewrite (list_lookup_total_middle (h_float h) [] PrimFloat.zero).
  - unfold String_Value. simpl.
    by rewrite (list_lookup_total_middle (h_string h) [] None).
Qed.

Lemma constructor_on_a_free_name_witness :
  Bucket_vars zeroBucket !! "n" = None ∧
  ∃ m' h', Bucket_NewInt "n" zeroBucket heap_5_x = (m', h', Ok 1) ∧
           Bucket_Get "n" m' = IntPtr 1 ∧ Int_Value 1 h' = 0%Z.
Proof.
  assert (Bucket_vars zeroBucket !! "n" = None) as E by reflexivity.
  split; [exact E|].
  destruct (proj1 (constructor_on_a_free_name "n" zeroBucket heap_5_x E))
    as (m' & h' & Hnew & Hget & _ & Hval).
  exists m', h'. split; [exact Hnew|]. split; [exact Hget | exact Hval].
Defined.

(** ** Values the scanner reads *)

Lemma length_app (s t : string) :
  String.length (s +:+ t) = String.length s + String.length t.
Proof. induction s as [|a s IH]; [done|]. rewrite app_cons. simpl. by rewrite IH. Qed.

Lemma scans_Valid (val : string) : scans_as_value val → JSON.Valid val = true.
Proof.
  intros H. destruct (H (String.length val) EmptyString eq_refl (le_n _)) as [H1 H2].
  rewrite app_empty_r in H1, H2. unfold JSON.Valid. by rewrite H1, H2.
Qed.

Lemma value_end_inv (c : ascii) (t : string) :
  value_end (String c t) = true →
  c = ","%char ∨ c = "}"%char ∨ c = "]"%char ∨ c = " "%char
  ∨ c = "009"%char ∨ c = "010"%char ∨ c = "013"%char.
Proof.
  intros H. destruct c as [[] [] [] [] [] [] [] []];
    vm_compute in H; try discriminate H; clear H;
    repeat ((left; reflexivity) || (try reflexivity; right)).
Qed.

Lemma scans_jsonString (s : string) : scans_as_value (jsonString s).
Proof.
  intros n t _ _. split; [|apply scan_value_jsonString].
  unfold jsonString. by rewrite app_cons.
Qed.

Lemma scans_literal (val : string) :
  val = "null" ∨ val = "true" ∨ val = "false" ∨ val = "{}" ∨ val = "[]" →
  scans_as_value val.
Proof.
  intros H n t _ _. destruct H as [->|[->|[->|[->| ->]]]]; split; reflexivity.
Qed.

Lemma value_end_number (t : string) :
  value_end t = true → JSON.skip_digits t = t ∧ number_tail (Some t) = Some t.
Proof.
  destruct t as [|c t]; [done|]. intros H.
  destruct (value_end_inv c t H) as [->|[->|[->|[->|[->|[->| ->]]]]]]; by split.
Qed.

Lemma skip_digits_uint_app (u : Decimal.uint) (t : string) :
  JSON.skip_digits (NilEmpty.string_of_uint u +:+ t) = JSON.skip_digits t.
Proof. induction u; simpl; auto. Qed.

Lemma scans_digits (u : Decimal.uint) :
  u ≠ Decimal.Nil → (∀ u', u ≠ Decimal.D0 u') →
  scans_as_value (NilEmpty.string_of_uint u) ∧
  scans_as_value (String "-" (NilEmpty.string_of_uint u)).
Proof.
  intros Hnil H0.
  destruct u as [|u|u|u|u|u|u|u|u|u|u]; try done; try (by destruct (H0 u));
    (split; intros n t Ht _; (split; [reflexivity|]);
     destruct (value_end_number t Ht) as [Hsd Hnt];
     pose proof (skip_digits_uint_app u t) as Happ; rewrite Hsd in Happ;
     cbn [NilEmpty.string_of_uint]; rewrite !app_cons;
     set (r := NilEmpty.string_of_uint u +:+ t) in *; clearbody r;
     match goal with
     | |- JSON.scan_value (S ?n) ?x = _ =>
         change (JSON.scan_value (S n) x) with (number_tail (Some (JSON.skip_digits r)))
     end;
     by rewrite Happ).
Qed.

Lemma scans_FormatInt (z : Z) : scans_as_value (FormatInt z).
Proof.
  unfold FormatInt. destruct z as [|q|q].
  - intros n t Ht _. split; [reflexivity|].
    destruct (value_end_number t Ht) as [_ Hnt]. exact Hnt.
  - simpl. pose proof (DecimalPos.Unsigned.to_uint_nonnil q) as Hnil.
    pose proof (to_uint_not_D0 q) as H0.
    destruct (scans_digits (Pos.to_uint q) Hnil H0) as [Hv _].
    unfold NilZero.string_of_uint. by destruct (Pos.to_uint q).
  - simpl. pose proof (DecimalPos.Unsigned.to_uint_nonnil q) as Hnil.
    pose proof (to_uint_not_D0 q) as H0.
    destruct (scans_digits (Pos.to_uint q) Hnil H0) as [_ Hv].
    unfold NilZero.string_of_uint. by destruct (Pos.to_uint q).
Qed.

(** ** Arrays of strings *)

Lemma join_length (sep : string) (l : list string) :
  Forall (λ x, 1 ≤ String.length x) l → length l ≤ String.length (join sep l).
Proof.
  induction 1 as [|x l Hx Hl IH]; [done|].
  destruct l as [|y l]; [simpl; lia|].
  change (join sep (x :: y :: l)) with (x +:+ sep +:+ join sep (y :: l)).
  rewrite !length_app. simpl in *. lia.
Qed.

Lemma scan_elements_unfold (n : nat) (s : string) :
  JSON.scan_elements (S n) s =
  match JSON.scan_value n s with
  | Some r1 =>
      match JSON.skip_ws r1 with
      | String "," r2 => JSON.scan_elements n (JSON.skip_ws r2)
      | String "]" r2 => Some r2
      | _ => None
      end
  | None => None
  end.
Proof. reflexivity. Qed.

Lemma join_jsonString_head (x : string) (l : list string) (t : string) :
  ∃ r, join "," (map jsonString (x :: l)) +:+ t = String Go.dquote r.
Proof.
  destruct l as [|y l]; cbn [map join]; unfold jsonString at 1;
    rewrite !app_cons; by eexists.
Qed.

Lemma scan_elements_strings (l : list string) (n : nat) (t : string) :
  l ≠ [] → length l ≤ n →
  JSON.scan_elements (S n) (join "," (map jsonString l) +:+ String "]" t) = Some t.
Proof.
  revert n. induction l as [|x l IH]; intros n Hne Hn; [done|].
  destruct n as [|n]; [simpl in Hn; lia|].
  rewrite scan_elements_unfold.
  destruct l as [|y l].
  - cbn [map join]. by rewrite scan_value_jsonString.
  - change (join "," (map jsonString (x :: y :: l)))
      with (jsonString x +:+ "," +:+ join "," (map jsonString (y :: l))).
    rewrite !app_assoc', scan_value_jsonString.
    change ("," +:+ ?r) with (String "," r).
    change (JSON.skip_ws (String "," ?r)) with (String "," r). cbv iota beta.
    destruct (join_jsonString_head y l (String "]" t)) as [r Hr].
    rewrite Hr. change (JSON.skip_ws (String Go.dquote r)) with (String Go.dquote r).
    rewrite <- Hr. apply IH; [done|]. simpl in Hn |- *. lia.
Qed.

Lemma scan_value_array (n : nat) (r : string) :
  JSON.scan_value (S n) (String "[" (String Go.dquote r))
  = JSON.scan_elements n (String Go.dquote r).
Proof. reflexivity. Qed.

Lemma scans_strings (l : list string) :
  scans_as_value ("[" +:+ join "," (map jsonString l) +:+ "]").
Proof.
  destruct l as [|x l]; [by apply scans_literal; auto 10|].
  intros n t _ Hn. split; [reflexivity|].
  rewrite !length_app in Hn. rewrite !app_assoc'.
  change ("[" +:+ ?r) with (String "[" r).
  change ("]" +:+ t) with (String "]" t).
  destruct (join_jsonString_head x l (String "]" t)) as [r Hr].
  assert (length (x :: l) ≤ String.length (join "," (map jsonString (x :: l)))) as Hlen.
  { rewrite <- (length_map jsonString). apply join_length, Forall_map, Forall_true.
    intros s. unfold jsonString. simpl. lia. }
  change (String.length "[") with 1 in Hn. change (String.length "]") with 1 in Hn.
  destruct n as [|n]; [lia|].
  rewrite Hr, scan_value_array, <- Hr. apply scan_elements_strings; [done|]. lia.
Qed.

Lemma scans_Marshal (v : Any) (val : string) :
  Marshal v = Some val → scans_as_value val.
Proof.
  destruct v as [|[]|i|s|l| |]; simpl; intros [= <-].
  - apply scans_literal; auto.
  - apply scans_literal; auto.
  - apply scans_literal; auto.
  - apply scans_FormatInt.
  - apply scans_jsonString.
  - apply scans_strings.
Qed.

(** ** Keys as Quote prints them *)

Lemma scan_quoteByte_JSON (c : ascii) (rest : string) :
  (N_of_ascii c <? 128)%N && negb (go_only_escape c) = true →
  JSON.scan_string (quoteByte c +:+ rest) = JSON.scan_string rest.
Proof.
  intros H. destruct c as [[] [] [] [] [] [] [] []];
    vm_compute in H; try discriminate H; clear H;
    match goal with
    | |- context [quoteByte ?c] =>
        let q := eval vm_compute in (quoteByte c) in change (quoteByte c) with q
    end;
    rewrite ?app_cons; change (EmptyString +:+ rest) with rest;
    cbn; reflexivity.
Qed.

Lemma scan_quoteByte_Go (c : ascii) (rest : string) :
  go_only_escape c = true → JSON.scan_string (quoteByte c +:+ rest) = None.
Proof.
  intros H. destruct c as [[] [] [] [] [] [] [] []];
    vm_compute in H; try discriminate H; clear H;
    match goal with
    | |- context [quoteByte ?c] =>
        let q := eval vm_compute in (quoteByte c) in change (quoteByte c) with q
    end;
    rewrite ?app_cons; change (EmptyString +:+ rest) with rest;
    cbn; reflexivity.
Qed.

Lemma scan_Quote_JSON (k r : string) :
  JSON_key k = true →
  JSON.scan_string (concatMap quoteByte k +:+ String Go.dquote r) = Some r.
Proof.
  induction k as [|c k IH]; [done|].
  unfold JSON_key. cbn [all_bytes]. intros [Hc Hk]%andb_prop.
  cbn [concatMap]. rewrite app_assoc', (scan_quoteByte_JSON c _ Hc). by apply IH.
Qed.

Lemma scan_Quote_Go (k r : string) :
  any_byte go_only_escape k = true →
  JSON.scan_string (concatMap quoteByte k +:+ r) = None.
Proof.
  induction k as [|c k IH]; [done|].
  cbn [any_byte concatMap]. rewrite app_assoc'. intros [Hc|Hk]%orb_prop.
  - by apply scan_quoteByte_Go.
  - destruct (scan_quoteByte c (concatMap quoteByte k +:+ r)) as [->| ->]; [done|].
    by apply IH.
Qed.

(** ** Objects *)

(** One member, a key printed by Quote, a colon, a space and a value, and
    what the scanner does after it. *)
Lemma scan_member (k val T : string) (n : nat) :
  JSON_key k = true → scans_as_value val → value_end T = true →
  String.length val ≤ n →
  JSON.scan_members (S (S n)) (Quote k +:+ ": " +:+ val +:+ T) =
  match JSON.skip_ws T with
  | String "," r4 => JSON.scan_members (S n) (JSON.skip_ws r4)
  | String "}" r4 => Some r4
  | _ => None
  end.
Proof.
  intros Hk Hval HT Hn. unfold Quote.
  rewrite app_cons, app_assoc'.
  change (String Go.dquote EmptyString +:+ ?x) with (String Go.dquote x).
  rewrite scan_members_unfold, (scan_Quote_JSON k _ Hk).
  change (": " +:+ ?x) with (String ":" (String " " x)).
  change (JSON.skip_ws (String ":" ?x)) with (String ":" x). cbv iota beta.
  change (JSON.skip_ws (String " " ?x)) with (JSON.skip_ws x).
  destruct (Hval n T HT Hn) as [-> ->]. done.
Qed.

Lemma scan_value_object' (n : nat) (r : string) :
  JSON.scan_value (S n) (String "{" (String Go.dquote r))
  = JSON.scan_members n (String Go.dquote r).
Proof. reflexivity. Qed.

Section Members.

Variable val : string → string.
Variable w : ascii.
Hypothesis w_ws : JSON.is_ws w = true.

Let entry (k : string) : string := Quote k +:+ ": " +:+ val k.
Let sep : string := String "," (String w EmptyString).

Lemma entry_head (k : string) (t : string) : ∃ r, entry k +:+ t = String Go.dquote r.
Proof. unfold entry, Quote. rewrite !app_cons. by eexists. Qed.

Lemma join_entry_head (k : string) (ks : list string) (t : string) :
  ∃ r, join sep (map entry (k :: ks)) +:+ t = String Go.dquote r.
Proof.
  destruct ks as [|k2 ks]; cbn [map join].
  - apply entry_head.
  - rewrite app_assoc'. apply entry_head.
Qed.

Lemma scan_members_join (ks : list string) (n : nat) (close after : string) :
  ks ≠ [] →
  Forall (λ k, JSON_key k = true ∧ scans_as_value (val k)) ks →
  value_end close = true → JSON.skip_ws close = String "}" after →
  String.length (join sep (map entry ks)) ≤ n →
  JSON.scan_members (S n) (join sep (map entry ks) +:+ close) = Some after.
Proof.
  intros Hne Hks Hend Hclose. revert n.
  induction Hks as [|k ks [Hk Hv] Hks IH]; intros n Hn; [done|].
  destruct ks as [|k2 ks].
  - cbn [map join] in *. unfold entry in *. rewrite !length_app in Hn.
    change (String.length ": ") with 2 in Hn.
    destruct n as [|n]; [lia|].
    rewrite !app_assoc', scan_member, Hclose; [done..|lia].
  - change (join sep (map entry (k :: k2 :: ks)))
      with (entry k +:+ sep +:+ join sep (map entry (k2 :: ks))) in *.
    rewrite !length_app in Hn. unfold entry at 1 in Hn. unfold entry at 1.
    rewrite !length_app in Hn.
    change (String.length ": ") with 2 in Hn. change (String.length sep) with 2 in Hn.
    destruct n as [|n]; [lia|].
    rewrite !app_assoc'.
    set (rest := join sep (map entry (k2 :: ks)) +:+ close).
    rewrite scan_member; [|done..|lia].
    change (sep +:+ rest) with (String "," (String w rest)).
    change (JSON.skip_ws (String "," ?x)) with (String "," x). cbv iota beta.
    assert (JSON.skip_ws (String w rest) = rest) as ->.
    { cbn [JSON.skip_ws]. rewrite w_ws. unfold rest.
      destruct (join_entry_head k2 ks close) as [r ->]. reflexivity. }
    apply IH; [done|]. lia.
Qed.

End Members.

(** ** The renderings of a Map and of the registry *)

Lemma marshals_always_scans (jsonFloat : float → string) (h : Heap) (x : Var) :
  marshals_always x →
  ∃ val, MarshalVar jsonFloat h x = Some val ∧ scans_as_value val.
Proof.
  destruct x as [|p|p|p|p|f]; try done; intros _; simpl; eexists; (split; [done|]).
  - apply scans_FormatInt.
  - apply scans_jsonString.
  - apply scans_literal. auto 10.
Qed.

Lemma JSON_map_String (jsonFloat : float → string) (h : Heap) (v : Map) :
  JSON_map v →
  ∃ out, Map_String jsonFloat h v = Ok out ∧ scans_as_value out.
Proof.
  intros Hv. unfold JSON_map in Hv. unfold Map_String, Map_Do.
  set (val := λ k, default EmptyString (MarshalVar jsonFloat h (Map_m v !!! k))).
  rewrite (range_keys_join _ _ ", " (λ k, Quote k +:+ ": " +:+ val k)
             (marshals jsonFloat h (Map_m v))); cycle 1.
  { intros k x b first Hx Hnn (x' & s & Hx' & _ & Hs).
    assert (x' = x) as -> by congruence.
    unfold Map_String_visit, val. simpl.
    rewrite (lookup_total_correct _ _ _ Hx), Hs. simpl.
    destruct first; simpl; by rewrite !app_assoc'. }
  { eapply Forall_impl; [exact Hv|]. intros k (_ & x & Hx & Hm).
    destruct (marshals_always_scans jsonFloat h x Hm) as (s & Hs & _).
    assert (x ≠ Nil) as Hnn by (by destruct x).
    split; [by exists x | by exists x, s]. }
  destruct (Map_keys v) as [|k ks] eqn:Eks.
  { eexists. split; [done|]. apply scans_literal. auto 10. }
  eexists. split; [done|].
  intros n t Ht Hn. split; [reflexivity|].
  rewrite !length_app in Hn. change (String.length "{") with 1 in Hn.
  change (String.length "}") with 1 in Hn.
  rewrite !app_assoc'. change ("}" +:+ t) with (String "}" t).
  change ("{" +:+ ?r) with (String "{" r).
  destruct n as [|n]; [lia|].
  destruct (join_entry_head val " " k ks (String "}" t)) as [r Hr].
  rewrite Hr, scan_value_object', <- Hr.
  apply (scan_members_join val " " eq_refl); [done| |done|done|lia].
  eapply Forall_impl; [exact Hv|]. intros k' (Hk' & x & Hx & Hm).
  split; [done|]. unfold val. rewrite (lookup_total_correct _ _ _ Hx).
  destruct (marshals_always_scans jsonFloat h x Hm) as (s & -> & Hs). exact Hs.
Qed.

Lemma renders_JSON_scans (FormatFloat jsonFloat : float → string) (h : Heap) (x : Var) :
  renders_JSON h x → scans_as_value (fmt_s FormatFloat jsonFloat h x).
Proof.
  destruct x as [|p|p|p|p|f]; try done; unfold fmt_s; simpl.
  - intros _. apply scans_FormatInt.
  - intros _. apply scans_jsonString.
  - intros Hm. by destruct (JSON_map_String jsonFloat h _ Hm) as (out & -> & Hout).
  - intros Hf. unfold Func_String.
    destruct (Marshal (f tt)) as [val|] eqn:E; [|done]. exact (scans_Marshal _ _ E).
Qed.

(** ** What the renderings are worth as JSON *)

Lemma Map_visit_appends (jsonFloat : float → string) (h : Heap) (kv : KeyValue)
    (b : string) (first : bool) :
  ∃ ext first', Map_String_visit jsonFloat h kv (b, first) = (b +:+ ext, first').
Proof.
  unfold Map_String_visit.
  destruct first, (MarshalVar jsonFloat h (Value kv)); simpl;
    eexists _, _; rewrite ?app_assoc'; try reflexivity.
  by rewrite app_empty_r.
Qed.

Lemma Map_range_appends (jsonFloat : float → string) (h : Heap) (sm : gmap string Var)
    (ks : list string) (b b' : string) (first first' : bool) :
  range_keys sm (Map_String_visit jsonFloat h) ks (b, first) = Ok (b', first') →
  ∃ ext, b' = b +:+ ext.
Proof.
  revert b first. induction ks as [|k ks IH]; intros b first; cbn [range_keys].
  - intros [= <- <-]. exists EmptyString. by rewrite app_empty_r.
  - destruct (Load sm k) as [i ok]. destruct (assertVar i) as [av|msg]; [|done].
    destruct (Map_visit_appends jsonFloat h (mkKeyValue k av) b first) as (e1 & f1 & ->).
    intros [e2 ->]%IH. exists (e1 +:+ e2). by rewrite app_assoc'.
Qed.

(** An object whose first key holds an escape of Go is not JSON, whatever
    follows the key. *)
Lemma Go_key_first (k ws rest : string) :
  any_byte go_only_escape k = true →
  ws = EmptyString ∨ ws = newline →
  JSON.Valid ("{" +:+ ws +:+ Quote k +:+ rest) = false.
Proof.
  intros Hk Hws.
  set (body := concatMap quoteByte k +:+ String Go.dquote EmptyString +:+ rest).
  pose proof (scan_Quote_Go k (String Go.dquote EmptyString +:+ rest) Hk) as E.
  fold body in E.
  assert ("{" +:+ ws +:+ Quote k +:+ rest = String "{" (ws +:+ String Go.dquote body)) as ->.
  { unfold Quote, body. by rewrite (app_cons Go.dquote), app_assoc'. }
  unfold JSON.Valid.
  change (JSON.skip_ws (String "{" ?x)) with (String "{" x). cbn [String.length].
  destruct Hws as [-> | ->].
  - change (EmptyString +:+ ?x) with x.
    rewrite scan_value_object', scan_members_unfold. by rewrite E.
  - change (newline +:+ ?x) with (String "010" x).
    rewrite scan_value_object, scan_members_unfold. by rewrite E.
Qed.



(** X21. Map.String returns a JSON text, an object, for a Map whose keys
    are ASCII without a byte that %q escapes in the way of Go only, each
    bound to an Int, a String or a Map, whatever these hold. *)
Theorem Map_String_is_JSON (jsonFloat : float → string) (h : Heap) (v : Map) :
  JSON_map v →
  ∃ out, Map_String jsonFloat h v = Ok out ∧ JSON.Valid out = true.
Proof.
  intros Hv. destruct (JSON_map_String jsonFloat h v Hv) as (out & E & Hout).
  exists out. split; [done|]. by apply scans_Valid.
Qed.

Lemma Map_String_is_JSON_witness :
  JSON_map map_a_then_b ∧
  ∃ out, Map_String (fun _ => EmptyString) heap_5_x map_a_then_b = Ok out ∧
         JSON.Valid out = true.
Proof.
  assert (JSON_map map_a_then_b) as Hv.
  { unfold JSON_map. change (Map_keys map_a_then_b) with ["a"; "b"].
    repeat constructor.
    - by exists (IntPtr 0).
    - by exists (StringPtr 0). }
  split; [exact Hv|].
  exact (Map_String_is_JSON (fun _ => EmptyString) heap_5_x map_a_then_b Hv).
Defined.

(** X22. The handler writes a JSON text, an object, for a registry whose
    names are ASCII without a byte that %q escapes in the way of Go only,
    each bound to an Int, a String, a Func whose value json.Marshal
    accepts, or a Map of the kind Map.String renders as JSON, whatever
    these hold. *)
Theorem expvarHandler_is_JSON (FormatFloat jsonFloat : float → string)
    (h : Heap) (m : Bucket) :
  JSON_bucket h m →
  ∃ out, expvarHandler FormatFloat jsonFloat h m = Ok out ∧ JSON.Valid out = true.
Proof.
  intros Hm. unfold JSON_bucket in Hm. unfold expvarHandler, Bucket_Do.
  set (val := λ k, fmt_s FormatFloat jsonFloat h (Bucket_vars m !!! k)).
  rewrite (range_keys_join _ _ ("," +:+ newline) (λ k, Quote k +:+ ": " +:+ val k)
             (λ _, True)); cycle 1.
  { intros k x b first Hx Hnn _. unfold expvarHandler_visit, val.
    rewrite (lookup_total_correct _ _ _ Hx).
    destruct first; simpl; by rewrite !app_assoc'. }
  { eapply Forall_impl; [exact Hm|]. intros k (_ & x & Hx & Hr).
    split; [|done]. exists x. split; [done|]. by destruct x. }
  destruct (Bucket_varKeys m) as [|k ks] eqn:Eks.
  { eexists. split; [done|]. reflexivity. }
  eexists. split; [done|].
  unfold JSON.Valid. rewrite !app_assoc'.
  change ("{" +:+ newline +:+ ?r) with (String "{" (String "010" r)).
  change (JSON.skip_ws (String "{" ?r)) with (String "{" r).
  change (String.length (String "{" (String "010" ?r))) with (S (S (String.length r))).
  rewrite length_app.
  set (close := newline +:+ "}" +:+ newline).
  destruct (join_entry_head val "010" k ks close) as [r Hr].
  change ("," +:+ newline) with (String "," (String "010" EmptyString)) in *.
  rewrite Hr.
  change (JSON.scan_value (S ?n) (String "{" (String "010" (String Go.dquote r))))
    with (JSON.scan_members n (String Go.dquote r)).
  rewrite <- Hr.
  rewrite (scan_members_join val "010" eq_refl (k :: ks) _ close newline);
    [done|done| |done|done|lia].
  eapply Forall_impl; [exact Hm|]. intros k' (Hk' & x & Hx & Hx').
  split; [done|]. unfold val. rewrite (lookup_total_correct _ _ _ Hx).
  by apply renders_JSON_scans.
Qed.

Lemma expvarHandler_is_JSON_witness :
  JSON_bucket heap_5_x bucket_cmdline ∧
  ∃ out, expvarHandler (fun _ => EmptyString) (fun _ => EmptyString)
           heap_5_x bucket_cmdline = Ok out ∧
         JSON.Valid out = true.
Proof.
  assert (JSON_bucket heap_5_x bucket_cmdline) as Hm.
  { unfold JSON_bucket. change (Bucket_varKeys bucket_cmdline) with ["cmdline"; "hits"].
    repeat constructor.
    - exists (FuncVal (cmdline ["expvar"; "-v"])). by split.
    - by exists (IntPtr 0). }
  split; [exact Hm|].
  exact (expvarHandler_is_JSON (fun _ => EmptyString) (fun _ => EmptyString)
           heap_5_x bucket_cmdline Hm).
Defined.

(** X23. %q is the syntax of Go, not of JSON: when the first key of the
    registry holds a control character other than \b, \t, \n, \f and \r,
    or DEL, what the handler writes is not JSON, whatever the variables
    are; and so is what Map.String returns when the first key of the Map is
    such a key and json.Marshal accepts its value. *)
Theorem Quote_escape_breaks_the_document (k : string) :
  any_byte go_only_escape k = true →
  (∀ (FormatFloat jsonFloat : float → string) (h : Heap) (m : Bucket)
     (ks : list string) (out : string),
     Bucket_varKeys m = k :: ks →
     expvarHandler FormatFloat jsonFloat h m = Ok out →
     JSON.Valid out = false) ∧
  (∀ (jsonFloat : float → string) (h : Heap) (v : Map)
     (ks : list string) (x : Var) (out : string),
     Map_keys v = k :: ks →
     Map_m v !! k = Some x → MarshalVar jsonFloat h x ≠ None →
     Map_String jsonFloat h v = Ok out →
     JSON.Valid out = false).
Proof.
  intros Hk. split.
  - intros FormatFloat jsonFloat h m ks out Hks.
    unfold expvarHandler, Bucket_Do. rewrite Hks. cbn [range_keys].
    destruct (Load (Bucket_vars m) k) as [i ok].
    destruct (assertVar i) as [av|msg]; [|done].
    unfold expvarHandler_visit at 2. cbn [negb Key Value].
    destruct (range_keys _ _ ks _) as [[w b]|msg] eqn:E; [|done].
    destruct (range_appends _ _ _ _ _ _ _ _ _ E) as [ext ->].
    intros [= <-]. rewrite !app_assoc'. by apply Go_key_first; auto.
  - intros jsonFloat h v ks x out Hks Hx Hval.
    unfold Map_String, Map_Do. rewrite Hks. cbn [range_keys].
    unfold Load. rewrite Hx.
    destruct (assertVar x) as [av|msg] eqn:Ha; [|done].
    assert (av = x) as -> by (destruct x; simpl in Ha; congruence).
    unfold Map_String_visit at 2. cbn [negb Key Value].
    destruct (MarshalVar jsonFloat h x) as [val|]; [|done].
    destruct (range_keys _ _ ks _) as [[w b]|msg] eqn:E; [|done].
    destruct (Map_range_appends _ _ _ _ _ _ _ _ E) as [ext ->].
    intros [= <-]. rewrite !app_assoc'.
    change ("{" +:+ ?x) with ("{" +:+ EmptyString +:+ x).
    by apply Go_key_first; auto.
Qed.

Lemma Quote_escape_breaks_the_document_witness :
  any_byte go_only_escape bell = true ∧
  JSON.Valid ("{" +:+ newline +:+ Quote bell +:+ ": 5" +:+ newline +:+ "}" +:+ newline)
  = false ∧
  JSON.Valid ("{" +:+ Quote bell +:+ ": 5}") = false.
Proof.
  assert (any_byte go_only_escape bell = true) as Hk by reflexivity.
  destruct (Quote_escape_breaks_the_document bell Hk) as [Hdoc Hmap].
  split; [exact Hk|]. split.
  - exact (Hdoc (fun _ => EmptyString) (fun _ => EmptyString) heap_5_x bucket_bell
             [] _ eq_refl eq_refl).
  - exact (Hmap (fun _ => EmptyString) heap_5_x map_bell [] (IntPtr 0) _
             eq_refl eq_refl ltac:(discriminate) eq_refl).
Defined.
